(** * AssetService: download planning, archive naming and memory lane

    A shallow embedding of [server/src/domain/asset/asset.service.ts].

    - Numbers that the service only adds and compares (byte sizes, the
      archive threshold, the year count) are integers [Z], which is what
      JavaScript numbers are for integers below 2^53; the collision counter
      of [downloadArchive] is a [nat].
    - The [paths] object of [downloadArchive] is a finite map of its own
      properties together with the properties that every object inherits
      from [Object.prototype].
    - Awaited repository calls are recorded in a trace of [Event]s, in the
      order in which the service issues them; a thrown exception ends the
      computation with the trace emitted so far.
    - The archive accumulator of [getDownloadInfo] is a JavaScript object that
      is pushed to the [archives] array by reference.  The model keeps a heap
      of archive objects and stores references in [archives], so that a later
      mutation of an already pushed object is visible in the response. *)

From stdpp Require Import base option list strings gmap pretty.
From Stdlib Require Import Ascii ZArith Lia.

Local Open Scope Z_scope.

(** ** Entities and DTOs *)

Module ExifEntity.
Record t := mk { fileSizeInByte : option Z }.
End ExifEntity.

Module AssetEntity.
Record t := mk {
  id : string;
  originalPath : string;
  originalFileName : string;
  livePhotoVideoId : option string;
  exifInfo : option ExifEntity.t;
}.
End AssetEntity.

Module AuthUserDto.
Record t := mk { id : string }.
End AuthUserDto.

Module DownloadDto.
Record t := mk {
  assetIds : option (list string);
  albumId : option string;
  userId : option string;
  archiveSize : option Z;
}.
End DownloadDto.

Module AssetIdsDto.
Record t := mk { assetIds : list string }.
End AssetIdsDto.

Module DownloadArchiveInfo.
Record t := mk { size : Z; assetIds : list string }.
End DownloadArchiveInfo.

Module DownloadResponseDto.
Record t := mk { totalSize : Z; archives : list DownloadArchiveInfo.t }.
End DownloadResponseDto.

Module MemoryLaneDto.
Record t := mk { timestamp : Z; years : Z }.
End MemoryLaneDto.

Module MemoryLaneResponseDto.
Record t (R : Type) := mk { title : string; assets : list R }.
Arguments mk {R} _ _.
Arguments title {R} _.
Arguments assets {R} _.
End MemoryLaneResponseDto.

Inductive Permission := ASSET_DOWNLOAD | ALBUM_DOWNLOAD | LIBRARY_DOWNLOAD.

Inductive Exception :=
| BadRequestException (message : string)
| AccessDenied (permission : Permission).

(** The collaborators of the service.  [getByAlbumId] and [getByUserId] give
    the finite sequence of pages that the paginated repository call yields
    for an album or an owner. *)
Record Repositories := {
  hasPermission : AuthUserDto.t → Permission → list string → bool;
  getByIds : list string → list AssetEntity.t;
  getByAlbumId : string → list (list AssetEntity.t);
  getByUserId : string → list (list AssetEntity.t);
  getByDate : string → Z → Exception + list AssetEntity.t;
}.

(** ** Effects *)

Inductive Event :=
| RequirePermission (authUser : AuthUserDto.t) (p : Permission) (ids : list string)
| GetByIds (ids : list string)
| GetByAlbumId (page : nat) (albumId : string)
| GetByUserId (page : nat) (userId : string)
| GetByDate (userId : string) (date : Z).

Definition isPermissionCheck (ev : Event) : bool :=
  match ev with RequirePermission _ _ _ => true | _ => false end.

(** An awaited computation: its outcome and the calls it made. *)
Definition Async (A : Type) : Type := (Exception + A) * list Event.

Definition resolve {A} (a : A) : Async A := (inr a, []).
Definition throw {A} (e : Exception) : Async A := (inl e, []).
Definition call (ev : Event) : Async unit := (inr tt, [ev]).

Definition await {A B} (c : Async A) (k : A → Async B) : Async B :=
  match c.1 with
  | inl e => (inl e, c.2)
  | inr a => ((k a).1, c.2 ++ (k a).2)
  end.

Notation "'let*' x ':=' c 'in' k" := (await c (λ x, k))
  (at level 10, x pattern, c at level 100, k at level 200, only parsing).

Definition outcome {A} (c : Async A) : Exception + A := c.1.
Definition trace {A} (c : Async A) : list Event := c.2.

(** A string or an id is truthy when it is present and not empty. *)
Definition truthy (s : option string) : option string :=
  match s with
  | Some s => if decide (s = "") then None else Some s
  | None => None
  end.

(** ** getDownloadAssets *)

(** An async generator: the awaited steps that produce its pages, in order. *)
Definition AsyncGenerator (A : Type) : Type := list (Async A).

(** Modelled from the spec: [usePagination] of domain.util pulls the pages of
    a paginated repository call one at a time, in order, until the store
    signals exhaustion; every pull is one store access. *)
Definition usePagination {A} (getNextPage : nat → Event) (pages : list A)
  : AsyncGenerator A :=
  imap (λ k items, let* _ := call (getNextPage k) in resolve items) pages.

(** Modelled from the spec: [requirePermission] of the access core asks the
    access repository once and fails when the permission is not granted. *)
Definition requirePermission (repos : Repositories) (authUser : AuthUserDto.t)
    (p : Permission) (ids : list string) : Async unit :=
  let* _ := call (RequirePermission authUser p ids) in
  if hasPermission repos authUser p ids then resolve tt else throw (AccessDenied p).

Definition getDownloadAssets (repos : Repositories) (authUser : AuthUserDto.t)
    (dto : DownloadDto.t) : Async (AsyncGenerator (list AssetEntity.t)) :=
  match DownloadDto.assetIds dto with
  | Some assetIds =>
      let* _ := requirePermission repos authUser ASSET_DOWNLOAD assetIds in
      let* assets := (let* _ := call (GetByIds assetIds) in resolve (getByIds repos assetIds)) in
      resolve [resolve assets]
  | None =>
    match truthy (DownloadDto.albumId dto) with
    | Some albumId =>
        let* _ := requirePermission repos authUser ALBUM_DOWNLOAD [albumId] in
        resolve (usePagination (λ k, GetByAlbumId k albumId) (getByAlbumId repos albumId))
    | None =>
      match truthy (DownloadDto.userId dto) with
      | Some userId =>
          let* _ := requirePermission repos authUser LIBRARY_DOWNLOAD [userId] in
          resolve (usePagination (λ k, GetByUserId k userId) (getByUserId repos userId))
      | None => throw (BadRequestException "assetIds, albumId, or userId is required")
      end
    end
  end.

(** ** getDownloadInfo *)

(** Modelled from the spec: [HumanReadableSize.GiB] of domain.util, the
    number of bytes in one GiB. *)
Definition HumanReadableSize_GiB : Z := 1024 ^ 3.

(** [dto.archiveSize || HumanReadableSize.GiB * 4]: an absent or zero size
    falls back to the default. *)
Definition targetSizeOf (dto : DownloadDto.t) : Z :=
  match DownloadDto.archiveSize dto with
  | Some n => if decide (n = 0) then HumanReadableSize_GiB * 4 else n
  | None => HumanReadableSize_GiB * 4
  end.

(** [Number(asset.exifInfo?.fileSizeInByte || 0)] *)
Definition fileSize (asset : AssetEntity.t) : Z :=
  match AssetEntity.exifInfo asset with
  | Some exif => default 0 (ExifEntity.fileSizeInByte exif)
  | None => 0
  end.

(** The local variables of [getDownloadInfo]: [heap] holds the archive
    objects allocated so far, [archives] the references pushed to the result
    array, [archive] the reference held by the accumulator variable. *)
Record PlanState := {
  heap : list DownloadArchiveInfo.t;
  archives : list nat;
  archive : nat;
}.

Definition emptyArchive : DownloadArchiveInfo.t := DownloadArchiveInfo.mk 0 [].

Definition deref (h : list DownloadArchiveInfo.t) (r : nat) : DownloadArchiveInfo.t :=
  default emptyArchive (h !! r).

Definition initialPlan : PlanState :=
  {| heap := [emptyArchive]; archives := []; archive := 0 |}.

Definition addSize (n : Z) (a : DownloadArchiveInfo.t) : DownloadArchiveInfo.t :=
  DownloadArchiveInfo.mk (DownloadArchiveInfo.size a + n) (DownloadArchiveInfo.assetIds a).

Definition pushId (i : string) (a : DownloadArchiveInfo.t) : DownloadArchiveInfo.t :=
  DownloadArchiveInfo.mk (DownloadArchiveInfo.size a) (DownloadArchiveInfo.assetIds a ++ [i]).

(** [archives.push(archive)] *)
Definition pushArchive (st : PlanState) : PlanState :=
  {| heap := heap st; archives := archives st ++ [archive st]; archive := archive st |}.

(** [archive = { size: 0, assetIds: [] }] *)
Definition freshArchive (st : PlanState) : PlanState :=
  {| heap := heap st ++ [emptyArchive]; archives := archives st; archive := length (heap st) |}.

(** The body of [for (const asset of assets)]. *)
Definition addAsset (targetSize : Z) (st : PlanState) (asset : AssetEntity.t) : PlanState :=
  let h1 := alter (addSize (fileSize asset)) (archive st) (heap st) in
  let h2 := alter (pushId (AssetEntity.id asset)) (archive st) h1 in
  let st2 := {| heap := h2; archives := archives st; archive := archive st |} in
  if decide (DownloadArchiveInfo.size (deref h2 (archive st)) > targetSize)
  then freshArchive (pushArchive st2)
  else st2.

(** [assets.map((asset) => asset.livePhotoVideoId).filter((id) => !!id)] *)
Definition motionIdsOf (assets : list AssetEntity.t) : list string :=
  omap (λ asset, truthy (AssetEntity.livePhotoVideoId asset)) assets.

(** The page after the motion parts of its live photos have been appended. *)
Definition withMotion (repos : Repositories) (assets : list AssetEntity.t)
  : list AssetEntity.t :=
  match motionIdsOf assets with
  | [] => assets
  | motionIds => assets ++ getByIds repos motionIds
  end.

(** [if (archive.assetIds.length > 0) { archives.push(archive); }] at the end
    of the body of the loop over the pages. *)
Definition pageEnd (st : PlanState) : PlanState :=
  if decide (0 < length (DownloadArchiveInfo.assetIds (deref (heap st) (archive st))))%nat
  then pushArchive st else st.

(** The body of [for await (const assets of assetPagination)]. *)
Definition planPage (repos : Repositories) (targetSize : Z) (st : PlanState)
    (assets : list AssetEntity.t) : Async PlanState :=
  let* _ := match motionIdsOf assets with
            | [] => resolve tt
            | motionIds => call (GetByIds motionIds)
            end in
  resolve (pageEnd (foldl (addAsset targetSize) st (withMotion repos assets))).

Fixpoint forAwait (repos : Repositories) (targetSize : Z)
    (gen : AsyncGenerator (list AssetEntity.t)) (st : PlanState) : Async PlanState :=
  match gen with
  | [] => resolve st
  | next :: gen' =>
      let* assets := next in
      let* st' := planPage repos targetSize st assets in
      forAwait repos targetSize gen' st'
  end.

Definition getDownloadInfo (repos : Repositories) (authUser : AuthUserDto.t)
    (dto : DownloadDto.t) : Async DownloadResponseDto.t :=
  let targetSize := targetSizeOf dto in
  let* assetPagination := getDownloadAssets repos authUser dto in
  let* st := forAwait repos targetSize assetPagination initialPlan in
  let archives := deref (heap st) <$> archives st in
  resolve (DownloadResponseDto.mk
             (foldl (λ total item, total + DownloadArchiveInfo.size item) 0 archives)
             archives).

(** The pages an async generator yields when it is run to completion. *)
Definition yields {A} (gen : AsyncGenerator A) : list A :=
  omap (λ next : Async A, match next.1 with inr items => Some items | inl _ => None end) gen.

(** The plan after the given pages have been packed, calls left aside. *)
Definition runPages (repos : Repositories) (targetSize : Z)
    (pages : list (list AssetEntity.t)) (st : PlanState) : PlanState :=
  foldl (λ st assets, pageEnd (foldl (addAsset targetSize) st (withMotion repos assets)))
        st pages.

(** The response read off the final plan. *)
Definition responseOf (st : PlanState) : DownloadResponseDto.t :=
  let archives := deref (heap st) <$> archives st in
  DownloadResponseDto.mk
    (foldl (λ total item, total + DownloadArchiveInfo.size item) 0 archives) archives.

(** The archive that holds exactly one asset. *)
Definition singleArchive (asset : AssetEntity.t) : DownloadArchiveInfo.t :=
  DownloadArchiveInfo.mk (fileSize asset) [AssetEntity.id asset].

(** The accumulator after one asset has been added to it. *)
Definition grown (asset : AssetEntity.t) (acc : DownloadArchiveInfo.t) : DownloadArchiveInfo.t :=
  pushId (AssetEntity.id asset) (addSize (fileSize asset) acc).

(** Packing of one working list into an accumulator that no pushed reference
    aliases: the archives sealed inside the loop and the accumulator left
    open.  Used to reason about [foldl (addAsset targetSize)]. *)
Fixpoint pack (targetSize : Z) (acc : DownloadArchiveInfo.t)
    (assets : list AssetEntity.t) : list DownloadArchiveInfo.t * DownloadArchiveInfo.t :=
  match assets with
  | [] => ([], acc)
  | asset :: rest =>
      let acc' := grown asset acc in
      if decide (DownloadArchiveInfo.size acc' > targetSize)
      then (acc' :: (pack targetSize emptyArchive rest).1, (pack targetSize emptyArchive rest).2)
      else pack targetSize acc' rest
  end.

(** No pushed reference aliases the accumulator, and all references are
    allocated. *)
Definition unaliased (st : PlanState) : Prop :=
  (archive st < length (heap st))%nat ∧
  Forall (λ r, (r < length (heap st))%nat ∧ r ≠ archive st) (archives st).

(** All references are allocated and every pushed archive holds an asset. *)
Definition pushedNonEmpty (st : PlanState) : Prop :=
  (archive st < length (heap st))%nat ∧
  Forall (λ r, DownloadArchiveInfo.assetIds (deref (heap st) r) ≠ []) (archives st).

Definition sumSizes (assets : list AssetEntity.t) : Z :=
  foldr (λ asset total, fileSize asset + total) 0 assets.

Definition sumArchives (l : list DownloadArchiveInfo.t) : Z :=
  foldr (λ item total, DownloadArchiveInfo.size item + total) 0 l.

(** ** getMemoryLane *)

(** A promise, given by the value it settles to. *)
Definition Promise (A : Type) : Type := (Exception + A)%type.

(** [Promise.all]: [completion] lists the indices of the promises in the
    order in which they settle.  The first rejection rejects the aggregate;
    a fulfilled value is stored at the index of its promise. *)
Fixpoint settleAll {A} (completion : list nat) (requests : list (Promise A))
    (results : list (option A)) : Exception + list (option A) :=
  match completion with
  | [] => inr results
  | i :: completion' =>
      match requests !! i with
      | Some (inl e) => inl e
      | Some (inr v) => settleAll completion' requests (<[i := Some v]> results)
      | None => settleAll completion' requests results
      end
  end.

(** [None]: the aggregate promise is still pending after [completion]. *)
Definition Promise_all {A} (completion : list nat) (requests : list (Promise A))
  : option (Exception + list A) :=
  match settleAll completion requests (replicate (length requests) None) with
  | inl e => Some (inl e)
  | inr results => inr <$> mapM (λ r : option A, r) results
  end.

Section MemoryLane.
Context {AssetResponseDto : Type}.
(** [mapAsset] of response-dto and luxon's [target.minus({ years })]. *)
Context (mapAsset : AssetEntity.t → AssetResponseDto).
Context (minusYears : Z → Z → Z).

Definition yearsTitle (yearsAgo : Z) : string :=
  pretty yearsAgo +:+ " year" +:+ (if decide (yearsAgo > 1) then "s" else "") +:+ " since...".

(** [onRequest] issues its lookup when it is called and returns the promise
    of the entry. *)
Definition onRequest (repos : Repositories) (authUser : AuthUserDto.t) (target : Z)
    (yearsAgo : Z) : Async (Promise (MemoryLaneResponseDto.t AssetResponseDto)) :=
  let date := minusYears target yearsAgo in
  let* _ := call (GetByDate (AuthUserDto.id authUser) date) in
  resolve (match getByDate repos (AuthUserDto.id authUser) date with
           | inl e => inl e
           | inr assets =>
               inr (MemoryLaneResponseDto.mk (yearsTitle yearsAgo) (mapAsset <$> assets))
           end).

(** [for (let i = ...; i <= dto.years; i++) requests.push(onRequest(i))],
    with [n] iterations left. *)
Fixpoint requestLoop (repos : Repositories) (authUser : AuthUserDto.t) (target : Z)
    (n : nat) (i : Z) : Async (list (Promise (MemoryLaneResponseDto.t AssetResponseDto))) :=
  match n with
  | O => resolve []
  | S n' =>
      let* request := onRequest repos authUser target i in
      let* requests := requestLoop repos authUser target n' (i + 1) in
      resolve (request :: requests)
  end.

Definition getMemoryLane (completion : list nat) (repos : Repositories)
    (authUser : AuthUserDto.t) (dto : MemoryLaneDto.t)
  : option (Exception + list (MemoryLaneResponseDto.t AssetResponseDto)) * list Event :=
  let target := MemoryLaneDto.timestamp dto in
  let requests := requestLoop repos authUser target (Z.to_nat (MemoryLaneDto.years dto)) 1 in
  (match requests.1 with
   | inl e => Some (inl e)
   | inr requests =>
       match Promise_all completion requests with
       | Some (inr results) =>
           Some (inr (filter (λ result, (0 < length (MemoryLaneResponseDto.assets result))%nat) results))
       | Some (inl e) => Some (inl e)
       | None => None
       end
   end, requests.2).

End MemoryLane.

(** ** downloadArchive *)

(** A value read from the [paths] object: a number, or a string.  A function
    or an object that [paths] inherits is given by the string it converts
    to, which is all that [count + 1] and the template string use of it. *)
Inductive JsValue :=
| JsNumber (n : nat)
| JsString (s : string).

Definition nativeFunction (name : string) : string :=
  "function " +:+ name +:+ "() { [native code] }".

(** The properties that an object created by [{}] inherits from
    [Object.prototype] in Node, each as the string it converts to. *)
Definition objectPrototype (key : string) : option string :=
  if decide (key = "constructor") then Some (nativeFunction "Object")
  else if decide (key = "__proto__") then Some "[object Object]"
  else if decide (key ∈ ["__defineGetter__"; "__defineSetter__"; "hasOwnProperty";
                         "__lookupGetter__"; "__lookupSetter__"; "isPrototypeOf";
                         "propertyIsEnumerable"; "toString"; "valueOf"; "toLocaleString"])
  then Some (nativeFunction key)
  else None.

(** [paths[filename]]: an own property, else an inherited one, else
    [undefined]. *)
Definition getProperty (paths : gmap string JsValue) (filename : string) : option JsValue :=
  match paths !! filename with
  | Some value => Some value
  | None => JsString <$> objectPrototype filename
  end.

(** [value || 0] *)
Definition orZero (value : option JsValue) : JsValue :=
  match value with
  | Some (JsNumber n) => JsNumber n
  | Some (JsString s) => if decide (s = "") then JsNumber 0 else JsString s
  | None => JsNumber 0
  end.

(** [count + 1]: addition on a number, concatenation on a string. *)
Definition plusOne (count : JsValue) : JsValue :=
  match count with
  | JsNumber n => JsNumber (n + 1)
  | JsString s => JsString (s +:+ "1")
  end.

(** [paths[filename] = value]: the setter of [__proto__] ignores a number or
    a string; any other name becomes an own property. *)
Definition setProperty (filename : string) (value : JsValue) (paths : gmap string JsValue)
  : gmap string JsValue :=
  if decide (filename = "__proto__") then paths else <[filename := value]> paths.

(** [count !== 0] *)
Definition notZero (count : JsValue) : bool :=
  match count with
  | JsNumber O => false
  | _ => true
  end.

(** The text of [count] in a template string. *)
Definition toText (count : JsValue) : string :=
  match count with
  | JsNumber n => pretty n
  | JsString s => s
  end.

Section DownloadArchive.
(** [extname] of Node's path module. *)
Context (extname : string → string).

Definition baseName (asset : AssetEntity.t) : string :=
  AssetEntity.originalFileName asset +:+ extname (AssetEntity.originalPath asset).

(** The entry name for a base name that [count] earlier assets had. *)
Definition entryName (asset : AssetEntity.t) (count : nat) : string :=
  if decide (count ≠ 0)%nat
  then AssetEntity.originalFileName asset +:+ "+" +:+ pretty count
         +:+ extname (AssetEntity.originalPath asset)
  else baseName asset.

(** The loop over the assets; the result lists the [zip.addFile] calls. *)
Fixpoint addFiles (paths : gmap string JsValue) (assets : list AssetEntity.t)
  : list (string * string) :=
  match assets with
  | [] => []
  | asset :: rest =>
      let ext := extname (AssetEntity.originalPath asset) in
      let filename := AssetEntity.originalFileName asset +:+ ext in
      let count := orZero (getProperty paths filename) in
      let paths' := setProperty filename (plusOne count) paths in
      let filename' :=
        if notZero count
        then AssetEntity.originalFileName asset +:+ "+" +:+ toText count +:+ ext
        else filename in
      (AssetEntity.originalPath asset, filename') :: addFiles paths' rest
  end.

(** The loop when every value it reads from [paths] is a counter: [counts]
    holds, for each base name, the number of assets that had it. *)
Fixpoint countFiles (counts : gmap string nat) (assets : list AssetEntity.t)
  : list (string * string) :=
  match assets with
  | [] => []
  | asset :: rest =>
      let filename := baseName asset in
      let count := default 0%nat (counts !! filename) in
      let counts' := <[filename := (count + 1)%nat]> counts in
      (AssetEntity.originalPath asset, entryName asset count) :: countFiles counts' rest
  end.

(** The base name of [asset] is not the name of an inherited property. *)
Definition ownName (asset : AssetEntity.t) : Prop :=
  objectPrototype (baseName asset) = None.

Definition downloadArchive (repos : Repositories) (authUser : AuthUserDto.t)
    (dto : AssetIdsDto.t) : Async (list (string * string)) :=
  let* _ := requirePermission repos authUser ASSET_DOWNLOAD (AssetIdsDto.assetIds dto) in
  let* assets := (let* _ := call (GetByIds (AssetIdsDto.assetIds dto)) in
                  resolve (getByIds repos (AssetIdsDto.assetIds dto))) in
  resolve (addFiles ∅ assets).

(** How often the base name of [asset] occurs among [earlier]. *)
Definition occurrences (asset : AssetEntity.t) (earlier : list AssetEntity.t) : nat :=
  length (filter (λ other, baseName other = baseName asset) earlier).

End DownloadArchive.

Fixpoint allChars (P : ascii → bool) (s : string) : bool :=
  match s with
  | EmptyString => true
  | String c s' => P c && allChars P s'
  end.

Definition isDigit (c : ascii) : bool :=
  bool_decide (c ∈ ["0"; "1"; "2"; "3"; "4"; "5"; "6"; "7"; "8"; "9"]%char).

Definition notPlus (c : ascii) : bool := bool_decide (c ≠ "+"%char).

Definition startsWithDigit (s : string) : bool :=
  match s with
  | EmptyString => false
  | String c _ => isDigit c
  end.

(** Display names and extensions for which the counting scheme cannot
    produce a name that another asset already has. *)
Definition plainName (extname : string → string) (asset : AssetEntity.t) : Prop :=
  allChars notPlus (AssetEntity.originalFileName asset) = true ∧
  allChars notPlus (extname (AssetEntity.originalPath asset)) = true ∧
  startsWithDigit (extname (AssetEntity.originalPath asset)) = false ∧
  ownName extname asset.

(** The extension of the last segment of a path with no trailing separator,
    as Node's [path.extname] gives it on POSIX: from the last dot, unless
    that dot starts the segment or the segment is [..]. *)
Fixpoint lastSegment (acc : string) (p : string) : string :=
  match p with
  | EmptyString => acc
  | String c p' =>
      if decide (c = "/"%char) then lastSegment "" p' else lastSegment (acc +:+ String c "") p'
  end.

Fixpoint fromLastDot (seg : string) : option string :=
  match seg with
  | EmptyString => None
  | String c seg' =>
      match fromLastDot seg' with
      | Some ext => Some ext
      | None => if decide (c = "."%char) then Some seg else None
      end
  end.

Definition posixExtname (p : string) : string :=
  let seg := lastSegment "" p in
  match seg with
  | EmptyString => ""
  | String _ seg' =>
      if decide (seg = "..") then "" else default "" (fromLastDot seg')
  end.

(** The archives of a response whose selection is delivered as one page. *)
Definition onePage (targetSize : Z) (working : list AssetEntity.t)
  : list DownloadArchiveInfo.t :=
  (pack targetSize emptyArchive working).1
    ++ (if decide (0 < length (DownloadArchiveInfo.assetIds
                                 (pack targetSize emptyArchive working).2))%nat
        then [(pack targetSize emptyArchive working).2] else []).

(** ** How a request selects its assets *)

Definition noPermissionCheck (evs : list Event) : Prop :=
  Forall (λ ev, isPermissionCheck ev = false) evs.

(** The request checks permission [p] on [target] first and only once; when
    the check passes, the pages are [pages]; when it fails, nothing else is
    called. *)
Definition selects (repos : Repositories) (authUser : AuthUserDto.t) (dto : DownloadDto.t)
    (p : Permission) (target : list string) (pages : list (list AssetEntity.t)) : Prop :=
  ∃ rest,
    trace (getDownloadInfo repos authUser dto) = RequirePermission authUser p target :: rest ∧
    noPermissionCheck rest ∧
    if hasPermission repos authUser p target
    then ∃ gen, outcome (getDownloadAssets repos authUser dto) = inr gen ∧ yields gen = pages
    else rest = [] ∧ outcome (getDownloadInfo repos authUser dto) = inl (AccessDenied p).

(** ** Stores used in the examples *)

Definition assetOf (i : string) (bytes : Z) (live : option string) : AssetEntity.t :=
  AssetEntity.mk i ("/upload/" +:+ i +:+ ".jpg") i live
    (Some (ExifEntity.mk (Some bytes))).

(** A store that holds [library], pages every album and owner as [pages],
    answers date lookups with [byDate] and grants every permission. *)
Definition storeOf (library : list AssetEntity.t) (pages : list (list AssetEntity.t))
    (byDate : Z → list AssetEntity.t) : Repositories :=
  {| hasPermission := λ _ _ _, true;
     getByIds := λ ids,
       omap (λ i, List.find (λ asset, bool_decide (AssetEntity.id asset = i)) library) ids;
     getByAlbumId := λ _, pages;
     getByUserId := λ _, pages;
     getByDate := λ _ date, inr (byDate date) |}.

Definition someUser : AuthUserDto.t := AuthUserDto.mk "user".

(** A live photo ["p"] of 10 bytes whose motion part ["m"] has 5 bytes. *)
Definition livePhotoStore : Repositories :=
  storeOf [assetOf "p" 10 (Some "m"); assetOf "m" 5 None] [] (λ _, []).

(** An album delivered as two pages of one asset of one byte each. *)
Definition twoPageStore : Repositories :=
  storeOf [] [[assetOf "a" 1 None]; [assetOf "b" 1 None]] (λ _, []).

(** Three assets of one byte each. *)
Definition threeAssetStore : Repositories :=
  storeOf [assetOf "x" 1 None; assetOf "y" 1 None; assetOf "z" 1 None] [] (λ _, []).

(** The result slots once the promises listed in [completion] have been
    fulfilled with [values]. *)
Definition fulfil {A} (values : list A) (results : list (option A))
    (completion : list nat) : list (option A) :=
  foldl (λ results i,
           match values !! i with
           | Some v => <[i := Some v]> results
           | None => results
           end) results completion.

(** The memory lane entry for [yearsAgo] with the given assets, titled in the
    words of the specification. *)
Definition entryAt {R} (mapAsset : AssetEntity.t → R) (yearsAgo : Z)
    (assets : list AssetEntity.t) : MemoryLaneResponseDto.t R :=
  MemoryLaneResponseDto.mk
    (if decide (yearsAgo = 1) then "1 year since..." else pretty yearsAgo +:+ " years since...")
    (mapAsset <$> assets).

(** Calendar years counted as 365 days of milliseconds, for the examples. *)
Definition yearsBefore (target yearsAgo : Z) : Z := target - yearsAgo * 31536000000.

(** A user with assets one and three years before the anchor 100000000000,
    and none two years before it. *)
Definition anniversaryStore : Repositories :=
  storeOf [] []
    (λ date, if decide (date = yearsBefore 100000000000 1) then [assetOf "first" 1 None]
             else if decide (date = yearsBefore 100000000000 3) then [assetOf "third" 1 None]
             else []).

(** An asset with the given display name, stored under a path that ends in
    [ext]. *)
Definition fileOf (i name ext : string) : AssetEntity.t :=
  AssetEntity.mk i ("/upload/" +:+ i +:+ ext) name None None.

(** Three assets that share the display name [IMG_0001]. *)
Definition burstStore : Repositories :=
  storeOf [fileOf "1" "IMG_0001" ".jpg"; fileOf "2" "IMG_0001" ".jpg";
           fileOf "3" "IMG_0001" ".jpg"] [] (λ _, []).

(** Two assets named [a] and one whose own name is [a+1]. *)
Definition clashStore : Repositories :=
  storeOf [fileOf "1" "a" ".jpg"; fileOf "2" "a" ".jpg"; fileOf "3" "a+1" ".jpg"]
    [] (λ _, []).

(** An entry name that the loop can produce for one of the plain names once
    the counters have reached [paths]. *)
Definition producedFrom (extname : string → string) (paths : gmap string nat)
    (name : string) : Prop :=
  ∃ asset count,
    plainName extname asset ∧
    name = entryName extname asset count ∧
    (default 0%nat (paths !! baseName extname asset) ≤ count)%nat.

(** ** downloadFile *)

Section DownloadFile.
(** [mimeTypes.lookup] of domain.constant. *)
Context (mimeLookup : string → string).

(** The result stands for the read stream: the path and the mime type that
    [storageRepository.createReadStream] is called with. *)
Definition downloadFile (repos : Repositories) (authUser : AuthUserDto.t)
    (id : string) : Async (string * string) :=
  let* _ := requirePermission repos authUser ASSET_DOWNLOAD [id] in
  let* assets := (let* _ := call (GetByIds [id]) in resolve (getByIds repos [id])) in
  match assets with
  | [] => throw (BadRequestException "Asset not found")
  | asset :: _ =>
      resolve (AssetEntity.originalPath asset, mimeLookup (AssetEntity.originalPath asset))
  end.

End DownloadFile.

(** ** Auxiliary notions for the planner and the memory lane *)

(** Every id of [ids] is in a pushed archive. *)
Definition pushedCover (st : PlanState) (ids : list string) : Prop :=
  ∀ i, i ∈ ids →
    ∃ r, r ∈ archives st ∧ i ∈ DownloadArchiveInfo.assetIds (deref (heap st) r).

(** Every id of [ids] is in the accumulator or in a pushed archive. *)
Definition idsCovered (st : PlanState) (ids : list string) : Prop :=
  ∀ i, i ∈ ids →
    i ∈ DownloadArchiveInfo.assetIds (deref (heap st) (archive st)) ∨
    ∃ r, r ∈ archives st ∧ i ∈ DownloadArchiveInfo.assetIds (deref (heap st) r).

(** Every id that an archive object of the heap lists is one of [ids]. *)
Definition heapWithin (st : PlanState) (ids : list string) : Prop :=
  ∀ r i, i ∈ DownloadArchiveInfo.assetIds (deref (heap st) r) → i ∈ ids.

(** What the promise that [onRequest] returns for [yearsAgo] settles to. *)
Definition promiseAt {R} (mapAsset : AssetEntity.t → R) (minusYears : Z → Z → Z)
    (repos : Repositories) (authUser : AuthUserDto.t) (target yearsAgo : Z)
  : Promise (MemoryLaneResponseDto.t R) :=
  match getByDate repos (AuthUserDto.id authUser) (minusYears target yearsAgo) with
  | inl e => inl e
  | inr assets => inr (MemoryLaneResponseDto.mk (yearsTitle yearsAgo) (mapAsset <$> assets))
  end.

(** A store whose date lookups all fail. *)
Definition brokenStore : Repositories :=
  {| hasPermission := λ _ _ _, true;
     getByIds := λ _, [];
     getByAlbumId := λ _, [];
     getByUserId := λ _, [];
     getByDate := λ _ _, inl (BadRequestException "store failure") |}.

(** A store that grants nothing. *)
Definition lockedStore : Repositories :=
  {| hasPermission := λ _ _ _, false;
     getByIds := λ ids, (λ i, assetOf i 1 None) <$> ids;
     getByAlbumId := λ _, [];
     getByUserId := λ _, [];
     getByDate := λ _ _, inr [] |}.

(** One asset whose display name is [constructor], stored without an
    extension. *)
Definition inheritedNameStore : Repositories :=
  storeOf [fileOf "1" "constructor" ""] [] (λ _, []).

(** ** Live photos, in the words of the specification *)

(** The ids of the motion parts that the assets of a page name: the
    [livePhotoVideoId]s that are present and not empty, in page order. *)
Fixpoint liveMotionIds (assets : list AssetEntity.t) : list string :=
  match assets with
  | [] => []
  | asset :: rest =>
      match AssetEntity.livePhotoVideoId asset with
      | Some (String c s) => String c s :: liveMotionIds rest
      | _ => liveMotionIds rest
      end
  end.

(** The motion assets fetched for a page: what the store returns for the
    motion ids of the page, or nothing when the page names none. *)
Definition fetchedMotion (repos : Repositories) (assets : list AssetEntity.t)
  : list AssetEntity.t :=
  match liveMotionIds assets with
  | [] => []
  | _ :: _ => getByIds repos (liveMotionIds assets)
  end.

(** The size of the open archive right after each asset of [assets] has been
    added to it, starting from an open archive of [open] bytes; the archive
    is sealed right after an asset at which this size exceeds the threshold,
    and the next asset starts from 0. *)
Fixpoint runningSizes (targetSize : Z) (open : Z) (assets : list AssetEntity.t) : list Z :=
  match assets with
  | [] => []
  | asset :: rest =>
      (open + fileSize asset)
        :: runningSizes targetSize
             (if decide (open + fileSize asset > targetSize) then 0 else open + fileSize asset)
             rest
  end.

(** An album of one page that holds the live photo ["p"]; its motion part
    ["m"] is in the library only. *)
Definition livePhotoAlbumStore : Repositories :=
  storeOf [assetOf "m" 5 None] [[assetOf "p" 10 (Some "m")]] (λ _, []).

(** * Proofs *)

(** ** The heap of archive objects *)

Lemma deref_alter_eq f (h : list DownloadArchiveInfo.t) r :
  (r < length h)%nat → deref (alter f r h) r = f (deref h r).
Proof.
  intros Hr. unfold deref. rewrite list_lookup_alter_eq.
  destruct (lookup_lt_is_Some_2 h r Hr) as [x ->]. done.
Qed.

Lemma deref_alter_ne f (h : list DownloadArchiveInfo.t) r r' :
  r ≠ r' → deref (alter f r h) r' = deref h r'.
Proof. intros Hne. unfold deref. by rewrite list_lookup_alter_ne. Qed.

Lemma deref_app_l (h h' : list DownloadArchiveInfo.t) r :
  (r < length h)%nat → deref (h ++ h') r = deref h r.
Proof. intros Hr. unfold deref. by rewrite lookup_app_l. Qed.

Lemma deref_app_new (h : list DownloadArchiveInfo.t) a :
  deref (h ++ [a]) (length h) = a.
Proof. unfold deref. by rewrite list_lookup_middle. Qed.

Lemma deref_fmap_ext (h h' : list DownloadArchiveInfo.t) (rs : list nat) :
  Forall (λ r, deref h' r = deref h r) rs → deref h' <$> rs = deref h <$> rs.
Proof. induction 1 as [|r rs Hr _ IH]; [done|]. rewrite !fmap_cons. by rewrite Hr, IH. Qed.

Lemma addAsset_unaliased targetSize st asset :
  unaliased st →
  let acc' := grown asset (deref (heap st) (archive st)) in
  let st' := addAsset targetSize st asset in
  unaliased st' ∧
  deref (heap st') <$> archives st' =
    (deref (heap st) <$> archives st)
      ++ (if decide (DownloadArchiveInfo.size acc' > targetSize) then [acc'] else []) ∧
  deref (heap st') (archive st') =
    (if decide (DownloadArchiveInfo.size acc' > targetSize) then emptyArchive else acc').
Proof.
  intros [Hcur Hrefs] acc' st'. subst acc' st'. unfold addAsset, grown.
  set (h1 := alter (addSize (fileSize asset)) (archive st) (heap st)).
  set (h2 := alter (pushId (AssetEntity.id asset)) (archive st) h1).
  assert (Hlen : length h2 = length (heap st)).
  { unfold h2, h1. by rewrite !length_alter. }
  assert (Hacc : deref h2 (archive st)
                 = pushId (AssetEntity.id asset)
                     (addSize (fileSize asset) (deref (heap st) (archive st)))).
  { unfold h2, h1. rewrite deref_alter_eq by (by rewrite length_alter).
    by rewrite deref_alter_eq. }
  assert (Hold : Forall (λ r, deref h2 r = deref (heap st) r) (archives st)).
  { eapply Forall_impl; [exact Hrefs|]. intros r [_ Hne]. unfold h2, h1.
    rewrite !deref_alter_ne; done. }
  rewrite Hacc. case_decide as Hgt; simpl.
  - split_and!.
    + split; simpl.
      * rewrite length_app. simpl. lia.
      * rewrite length_app, Hlen. simpl. apply Forall_app. split.
        -- eapply Forall_impl; [exact Hrefs|]. intros r [Hr _]. simpl in *. lia.
        -- repeat constructor; lia.
    + rewrite fmap_app. simpl. f_equal.
      * apply deref_fmap_ext. eapply Forall_impl; [exact Hrefs|].
        intros r [Hr Hne]. simpl. rewrite deref_app_l by lia.
        unfold h2, h1. rewrite !deref_alter_ne; done.
      * rewrite deref_app_l by lia. by rewrite Hacc.
    + apply deref_app_new.
  - split_and!.
    + split; simpl; [lia|]. eapply Forall_impl; [exact Hrefs|].
      intros r [Hr Hne]. simpl. split; [lia|done].
    + rewrite app_nil_r. by apply deref_fmap_ext.
    + done.
Qed.

Lemma pack_cons targetSize acc asset rest :
  pack targetSize acc (asset :: rest) =
    if decide (DownloadArchiveInfo.size (grown asset acc) > targetSize)
    then (grown asset acc :: (pack targetSize emptyArchive rest).1,
          (pack targetSize emptyArchive rest).2)
    else pack targetSize (grown asset acc) rest.
Proof. reflexivity. Qed.

Lemma foldl_addAsset_pack targetSize assets : ∀ st,
  unaliased st →
  let st' := foldl (addAsset targetSize) st assets in
  let packed := pack targetSize (deref (heap st) (archive st)) assets in
  unaliased st' ∧
  deref (heap st') <$> archives st' = (deref (heap st) <$> archives st) ++ packed.1 ∧
  deref (heap st') (archive st') = packed.2.
Proof.
  induction assets as [|asset rest IH]; intros st Hst.
  - simpl. by rewrite app_nil_r.
  - cbn zeta. cbn [foldl]. rewrite pack_cons.
    destruct (addAsset_unaliased targetSize st asset Hst) as (Hst1 & Hrefs1 & Hacc1).
    destruct (IH _ Hst1) as (Hst' & Hrefs' & Hacc').
    rewrite Hacc1 in Hrefs', Hacc'. rewrite Hrefs1 in Hrefs'.
    case_decide as Hgt; cbn [fst snd].
    + split_and!; [done| |done]. by rewrite Hrefs', <-app_assoc.
    + split_and!; [done| |done]. by rewrite Hrefs', app_nil_r.
Qed.

(** ** Packing one working list *)

Lemma pack_assetIds targetSize assets : ∀ acc,
  concat (DownloadArchiveInfo.assetIds <$> (pack targetSize acc assets).1)
    ++ DownloadArchiveInfo.assetIds (pack targetSize acc assets).2
  = DownloadArchiveInfo.assetIds acc ++ (AssetEntity.id <$> assets).
Proof.
  induction assets as [|asset rest IH]; intros acc.
  - simpl. by rewrite app_nil_r.
  - rewrite pack_cons. case_decide; cbn [fst snd].
    + rewrite fmap_cons. cbn [concat]. rewrite <-app_assoc, IH. simpl.
      by rewrite <-app_assoc.
    + rewrite IH. simpl. by rewrite <-app_assoc.
Qed.

Lemma pack_sizes targetSize assets : ∀ acc,
  sumArchives (pack targetSize acc assets).1
    + DownloadArchiveInfo.size (pack targetSize acc assets).2
  = DownloadArchiveInfo.size acc + sumSizes assets.
Proof.
  induction assets as [|asset rest IH]; intros acc.
  - simpl. lia.
  - rewrite pack_cons. case_decide; cbn [fst snd].
    + cbn [sumArchives foldr]. fold (sumArchives (pack targetSize emptyArchive rest).1).
      specialize (IH emptyArchive). simpl in *. lia.
    + rewrite IH. simpl. lia.
Qed.

Lemma pack_sealed_exceed targetSize assets : ∀ acc,
  Forall (λ item, DownloadArchiveInfo.size item > targetSize) (pack targetSize acc assets).1.
Proof.
  induction assets as [|asset rest IH]; intros acc.
  - constructor.
  - rewrite pack_cons. case_decide; cbn [fst snd]; [constructor|]; auto.
Qed.

Lemma pack_within targetSize assets : ∀ acc,
  Forall (λ asset, 0 ≤ fileSize asset) assets →
  DownloadArchiveInfo.size acc + sumSizes assets ≤ targetSize →
  pack targetSize acc assets =
    ([], DownloadArchiveInfo.mk (DownloadArchiveInfo.size acc + sumSizes assets)
           (DownloadArchiveInfo.assetIds acc ++ (AssetEntity.id <$> assets))).
Proof.
  induction assets as [|asset rest IH]; intros acc Hpos Hsum.
  - simpl. rewrite app_nil_r, Z.add_0_r. by destruct acc.
  - apply Forall_cons in Hpos as [Hpos1 Hpos].
    assert (0 ≤ sumSizes rest).
    { clear -Hpos. induction Hpos; simpl in *; lia. }
    rewrite pack_cons. simpl in Hsum. case_decide as Hgt; [simpl in Hgt; lia|].
    rewrite IH; [|done|simpl; lia]. simpl. f_equal. f_equal; [lia|].
    by rewrite <-app_assoc.
Qed.

Lemma pack_negative targetSize assets :
  targetSize < 0 →
  Forall (λ asset, 0 ≤ fileSize asset) assets →
  pack targetSize emptyArchive assets = (singleArchive <$> assets, emptyArchive).
Proof.
  intros Hneg. induction 1 as [|asset rest Hpos _ IH]; [done|].
  rewrite pack_cons. case_decide as Hgt; [|simpl in Hgt; lia].
  by rewrite IH.
Qed.

Lemma sumArchives_app l1 l2 : sumArchives (l1 ++ l2) = sumArchives l1 + sumArchives l2.
Proof. induction l1 as [|a l1 IH]; simpl in *; lia. Qed.

(** [archives.reduce((total, item) => (total += item.size), 0)] *)
Lemma totalSize_sumArchives l :
  foldl (λ total item, total + DownloadArchiveInfo.size item) 0 l = sumArchives l.
Proof.
  cut (∀ z, foldl (λ total item, total + DownloadArchiveInfo.size item) z l
            = z + sumArchives l).
  { intros ->. lia. }
  induction l as [|a l IH]; intros z; simpl; [lia|]. rewrite IH.
  unfold sumArchives. lia.
Qed.

(** ** Running the service *)

Lemma await_call {B} ev (k : unit → Async B) :
  await (call ev) k = ((k tt).1, ev :: (k tt).2).
Proof. reflexivity. Qed.

Lemma requirePermission_granted repos authUser p ids :
  hasPermission repos authUser p ids = true →
  requirePermission repos authUser p ids = (inr tt, [RequirePermission authUser p ids]).
Proof. unfold requirePermission. rewrite await_call. by intros ->. Qed.

Lemma requirePermission_denied repos authUser p ids :
  hasPermission repos authUser p ids = false →
  requirePermission repos authUser p ids
  = (inl (AccessDenied p), [RequirePermission authUser p ids]).
Proof. unfold requirePermission. rewrite await_call. by intros ->. Qed.

Lemma unaliased_initialPlan : unaliased initialPlan.
Proof. split; simpl; [lia|constructor]. Qed.

Lemma planPage_outcome repos targetSize st assets :
  outcome (planPage repos targetSize st assets)
  = inr (pageEnd (foldl (addAsset targetSize) st (withMotion repos assets))).
Proof. unfold planPage, outcome. by destruct (motionIdsOf assets). Qed.

Lemma planPage_trace repos targetSize st assets :
  trace (planPage repos targetSize st assets)
  = match motionIdsOf assets with [] => [] | motionIds => [GetByIds motionIds] end.
Proof. unfold planPage, trace. by destruct (motionIdsOf assets). Qed.

Lemma forAwait_cons repos targetSize next gen st :
  outcome (forAwait repos targetSize (next :: gen) st) =
    match next.1 with
    | inl e => inl e
    | inr assets =>
        outcome (forAwait repos targetSize gen
                   (pageEnd (foldl (addAsset targetSize) st (withMotion repos assets))))
    end.
Proof.
  cbn [forAwait]. unfold outcome, await at 1. destruct next as [[e|assets] evs]; [done|].
  cbn [fst snd]. unfold await.
  pose proof (planPage_outcome repos targetSize st assets) as Hp. unfold outcome in Hp.
  rewrite Hp. done.
Qed.

Lemma yields_cons {A} (next : Async A) gen :
  yields (next :: gen) =
    match next.1 with inr items => items :: yields gen | inl _ => yields gen end.
Proof. unfold yields. simpl. by destruct (next.1). Qed.

Lemma forAwait_yields repos targetSize gen : ∀ st,
  Forall (λ next : Async (list AssetEntity.t), ∃ p, next.1 = inr p) gen →
  outcome (forAwait repos targetSize gen st)
  = inr (runPages repos targetSize (yields gen) st).
Proof.
  induction gen as [|next gen IH]; intros st Hgen; [done|].
  apply Forall_cons in Hgen as [[p Hp] Hgen].
  rewrite forAwait_cons, yields_cons, Hp. by rewrite IH.
Qed.

Lemma getDownloadInfo_outcome repos authUser dto :
  outcome (getDownloadInfo repos authUser dto) =
    match outcome (getDownloadAssets repos authUser dto) with
    | inl e => inl e
    | inr gen =>
        match outcome (forAwait repos (targetSizeOf dto) gen initialPlan) with
        | inl e => inl e
        | inr st => inr (responseOf st)
        end
    end.
Proof.
  unfold getDownloadInfo, outcome, await.
  destruct (getDownloadAssets repos authUser dto).1 as [e|gen]; [done|].
  cbn [fst]. by destruct (forAwait repos (targetSizeOf dto) gen initialPlan).1.
Qed.

Lemma usePagination_yields {A} (pages : list A) : ∀ getNextPage,
  yields (usePagination getNextPage pages) = pages ∧
  Forall (λ next : Async A, ∃ p, next.1 = inr p) (usePagination getNextPage pages).
Proof.
  unfold usePagination.
  induction pages as [|p pages IH]; intros getNextPage; [by split|].
  destruct (IH (λ k, getNextPage (S k))) as [IH1 IH2]. cbn [imap]. split.
  - rewrite yields_cons, await_call. cbn [fst]. f_equal. exact IH1.
  - constructor; [rewrite await_call; by eexists|]. exact IH2.
Qed.

(** Every step of the generator that [getDownloadAssets] returns yields a
    page. *)
Lemma getDownloadAssets_yields repos authUser dto gen :
  outcome (getDownloadAssets repos authUser dto) = inr gen →
  Forall (λ next : Async (list AssetEntity.t), ∃ p, next.1 = inr p) gen.
Proof.
  unfold getDownloadAssets, outcome.
  destruct (DownloadDto.assetIds dto) as [ids|].
  { unfold await. destruct (requirePermission repos authUser ASSET_DOWNLOAD ids).1; [done|].
    cbn. intros [= <-]. constructor; [by eexists|constructor]. }
  destruct (truthy (DownloadDto.albumId dto)) as [albumId|].
  { unfold await. destruct (requirePermission repos authUser ALBUM_DOWNLOAD [albumId]).1; [done|].
    cbn. intros [= <-]. apply usePagination_yields. }
  destruct (truthy (DownloadDto.userId dto)) as [userId|]; [|done].
  unfold await. destruct (requirePermission repos authUser LIBRARY_DOWNLOAD [userId]).1; [done|].
  cbn. intros [= <-]. apply usePagination_yields.
Qed.

(** The response, for a selection that passes its access check. *)
Lemma getDownloadInfo_runPages repos authUser dto gen :
  outcome (getDownloadAssets repos authUser dto) = inr gen →
  outcome (getDownloadInfo repos authUser dto)
  = inr (responseOf (runPages repos (targetSizeOf dto) (yields gen) initialPlan)).
Proof.
  intros Hgen. rewrite getDownloadInfo_outcome, Hgen.
  rewrite forAwait_yields; [done|]. by eapply getDownloadAssets_yields.
Qed.

Lemma getDownloadAssets_ids repos authUser dto ids :
  DownloadDto.assetIds dto = Some ids →
  hasPermission repos authUser ASSET_DOWNLOAD ids = true →
  getDownloadAssets repos authUser dto
  = (inr [resolve (getByIds repos ids)],
     [RequirePermission authUser ASSET_DOWNLOAD ids; GetByIds ids]).
Proof.
  intros Hids Hok. unfold getDownloadAssets. rewrite Hids.
  by rewrite (requirePermission_granted _ _ _ _ Hok).
Qed.

Lemma pack_open_empty targetSize assets : ∀ acc,
  (DownloadArchiveInfo.assetIds acc = [] → acc = emptyArchive) →
  DownloadArchiveInfo.assetIds (pack targetSize acc assets).2 = [] →
  (pack targetSize acc assets).2 = emptyArchive.
Proof.
  induction assets as [|asset rest IH]; intros acc Hacc; [exact Hacc|].
  rewrite pack_cons. case_decide; cbn [snd]; apply IH; [done|].
  simpl. by destruct (DownloadArchiveInfo.assetIds acc).
Qed.

Lemma pageEnd_initialPlan targetSize working :
  deref (heap (pageEnd (foldl (addAsset targetSize) initialPlan working)))
    <$> archives (pageEnd (foldl (addAsset targetSize) initialPlan working))
  = onePage targetSize working.
Proof.
  destruct (foldl_addAsset_pack targetSize working initialPlan unaliased_initialPlan)
    as (_ & Hrefs & Hacc).
  change (deref (heap initialPlan) (archive initialPlan)) with emptyArchive in *.
  simpl in Hrefs. unfold pageEnd, onePage. rewrite Hacc. case_decide; simpl.
  - rewrite fmap_app, Hrefs. simpl. by rewrite Hacc.
  - by rewrite Hrefs, app_nil_r.
Qed.

Lemma getDownloadInfo_ids repos authUser dto ids :
  DownloadDto.assetIds dto = Some ids →
  hasPermission repos authUser ASSET_DOWNLOAD ids = true →
  ∃ resp, outcome (getDownloadInfo repos authUser dto) = inr resp ∧
    DownloadResponseDto.archives resp
      = onePage (targetSizeOf dto) (withMotion repos (getByIds repos ids)) ∧
    DownloadResponseDto.totalSize resp = sumArchives (DownloadResponseDto.archives resp).
Proof.
  intros Hids Hok. eexists. split.
  - apply getDownloadInfo_runPages with (gen := [resolve (getByIds repos ids)]).
    unfold outcome. by rewrite (getDownloadAssets_ids _ _ _ _ Hids Hok).
  - rewrite yields_cons. cbn [resolve fst yields omap list_omap runPages foldl].
    unfold responseOf. cbn [DownloadResponseDto.archives DownloadResponseDto.totalSize].
    split; [apply pageEnd_initialPlan|apply totalSize_sumArchives].
Qed.

Lemma onePage_assetIds targetSize working :
  concat (DownloadArchiveInfo.assetIds <$> onePage targetSize working)
  = AssetEntity.id <$> working.
Proof.
  unfold onePage. rewrite fmap_app, concat_app.
  pose proof (pack_assetIds targetSize working emptyArchive) as Hids.
  cbn [DownloadArchiveInfo.assetIds emptyArchive app] in Hids. rewrite <-Hids. f_equal.
  case_decide as Hlen; simpl; [by rewrite app_nil_r|].
  destruct (DownloadArchiveInfo.assetIds (pack targetSize emptyArchive working).2); [done|].
  simpl in Hlen. lia.
Qed.

Lemma onePage_sizes targetSize working :
  sumArchives (onePage targetSize working) = sumSizes working.
Proof.
  unfold onePage. rewrite sumArchives_app.
  pose proof (pack_sizes targetSize working emptyArchive) as Hsum.
  cbn [DownloadArchiveInfo.size emptyArchive] in Hsum. rewrite Z.add_0_l in Hsum.
  rewrite <-Hsum. f_equal. case_decide as Hlen; simpl; [lia|].
  rewrite (pack_open_empty targetSize working emptyArchive); [done|done|].
  destruct (DownloadArchiveInfo.assetIds (pack targetSize emptyArchive working).2); [done|].
  simpl in Hlen. lia.
Qed.

(** ** C1: what the archives of a response cover *)

(** C1, as stated, fails: the motion part of a live photo is fetched and
    packed with the page, so the archives hold an id that the input does not
    have and their sizes exceed the sizes of the input assets. *)
Lemma getDownloadInfo_motion_part_added :
  ∃ resp,
    outcome (getDownloadInfo livePhotoStore someUser
               (DownloadDto.mk (Some ["p"]) None None (Some 100))) = inr resp ∧
    DownloadResponseDto.archives resp = [DownloadArchiveInfo.mk 15 ["p"; "m"]] ∧
    AssetEntity.id <$> getByIds livePhotoStore ["p"] = ["p"] ∧
    sumSizes (getByIds livePhotoStore ["p"]) = 10 ∧
    ¬ (concat (DownloadArchiveInfo.assetIds <$> DownloadResponseDto.archives resp)
         ≡ₚ AssetEntity.id <$> getByIds livePhotoStore ["p"]) ∧
    sumArchives (DownloadResponseDto.archives resp)
      ≠ sumSizes (getByIds livePhotoStore ["p"]).
Proof.
  eexists. split; [by vm_compute|]. split; [done|]. split; [by vm_compute|].
  split; [by vm_compute|]. split; [|by vm_compute].
  intros Hperm. apply Permutation_length in Hperm. vm_compute in Hperm. discriminate.
Qed.

Lemma sumSizes_app l1 l2 : sumSizes (l1 ++ l2) = sumSizes l1 + sumSizes l2.
Proof. induction l1 as [|a l1 IH]; simpl in *; lia. Qed.

Lemma motionIdsOf_liveMotionIds assets : motionIdsOf assets = liveMotionIds assets.
Proof.
  unfold motionIdsOf. induction assets as [|asset rest IH]; [done|].
  cbn [liveMotionIds]. rewrite <-IH.
  destruct asset as [i path name [[|c m]|] exif]; cbn; done.
Qed.

(** The working list of a page: the page followed by the motion assets
    fetched for it. *)
Lemma withMotion_fetched repos assets :
  withMotion repos assets = assets ++ fetchedMotion repos assets.
Proof.
  unfold withMotion, fetchedMotion. rewrite motionIdsOf_liveMotionIds.
  destruct (liveMotionIds assets); [by rewrite app_nil_r|done].
Qed.

(** C1 (amended): for assets selected by id, which reach the planner as one
    page, the asset ids of the archives, read in order, are the ids of the
    input assets followed by the ids of the motion assets that the store
    returns for the non-empty [livePhotoVideoId]s of the input, and the
    archive sizes and [totalSize] add up to the sizes of the input assets
    plus the sizes of these motion assets; when no input asset names a motion
    part, the archives cover the input assets exactly. *)
Theorem getDownloadInfo_covers_working_list repos authUser dto ids :
  DownloadDto.assetIds dto = Some ids →
  hasPermission repos authUser ASSET_DOWNLOAD ids = true →
  ∃ resp, outcome (getDownloadInfo repos authUser dto) = inr resp ∧
    concat (DownloadArchiveInfo.assetIds <$> DownloadResponseDto.archives resp)
      = (AssetEntity.id <$> getByIds repos ids)
          ++ (AssetEntity.id <$> fetchedMotion repos (getByIds repos ids)) ∧
    sumArchives (DownloadResponseDto.archives resp)
      = sumSizes (getByIds repos ids) + sumSizes (fetchedMotion repos (getByIds repos ids)) ∧
    DownloadResponseDto.totalSize resp
      = sumSizes (getByIds repos ids) + sumSizes (fetchedMotion repos (getByIds repos ids)) ∧
    (liveMotionIds (getByIds repos ids) = [] →
     concat (DownloadArchiveInfo.assetIds <$> DownloadResponseDto.archives resp)
       = AssetEntity.id <$> getByIds repos ids ∧
     sumArchives (DownloadResponseDto.archives resp) = sumSizes (getByIds repos ids)).
Proof.
  intros Hids Hok.
  destruct (getDownloadInfo_ids repos authUser dto ids Hids Hok) as (resp & Hresp & Harch & Htotal).
  exists resp. rewrite Htotal, Harch, onePage_assetIds, onePage_sizes.
  rewrite withMotion_fetched, fmap_app, sumSizes_app.
  split_and!; try done.
  intros Hnone. unfold fetchedMotion. rewrite Hnone. simpl.
  rewrite app_nil_r. split; [done|lia].
Qed.

Lemma getDownloadInfo_covers_working_list_witness :
  ∃ resp, outcome (getDownloadInfo livePhotoStore someUser
                     (DownloadDto.mk (Some ["p"]) None None (Some 100))) = inr resp ∧
    concat (DownloadArchiveInfo.assetIds <$> DownloadResponseDto.archives resp) = ["p"; "m"] ∧
    sumArchives (DownloadResponseDto.archives resp) = 15 ∧
    DownloadResponseDto.totalSize resp = 15.
Proof.
  destruct (getDownloadInfo_covers_working_list livePhotoStore someUser
              (DownloadDto.mk (Some ["p"]) None None (Some 100)) ["p"]
              eq_refl eq_refl) as (resp & Hresp & Hids & Hsum & Htotal & _).
  exists resp. split_and!; [exact Hresp|exact Hids|exact Hsum|exact Htotal].
Defined.

(** ** C2: sealed archives and the threshold *)

(** C2 at an album of two pages and a threshold of 10 bytes: the accumulator
    is pushed at the end of the first page holding 1 byte, is not replaced,
    and is pushed again at the end of the second page, so the response lists
    the same archive twice and its first archive has 2 bytes. *)
Theorem getDownloadInfo_page_end_push_below_target :
  ∃ resp item,
    outcome (getDownloadInfo twoPageStore someUser
               (DownloadDto.mk None (Some "album") None (Some 10))) = inr resp ∧
    DownloadResponseDto.archives resp
      = [DownloadArchiveInfo.mk 2 ["a"; "b"]; DownloadArchiveInfo.mk 2 ["a"; "b"]] ∧
    DownloadResponseDto.archives resp !! 0%nat = Some item ∧
    (1 < length (DownloadResponseDto.archives resp))%nat ∧
    ¬ (DownloadArchiveInfo.size item > 10).
Proof.
  eexists _, _. split; [by vm_compute|]. split; [done|]. split; [done|].
  split; [simpl; lia|simpl; lia].
Qed.

(** X1: for assets selected by id, which reach the planner as one page,
    every archive of the response but the last exceeds the threshold. *)
Lemma getDownloadInfo_one_page_sealed_exceed repos authUser dto ids :
  DownloadDto.assetIds dto = Some ids →
  hasPermission repos authUser ASSET_DOWNLOAD ids = true →
  ∃ resp, outcome (getDownloadInfo repos authUser dto) = inr resp ∧
    ∀ k item,
      DownloadResponseDto.archives resp !! k = Some item →
      (S k < length (DownloadResponseDto.archives resp))%nat →
      DownloadArchiveInfo.size item > targetSizeOf dto.
Proof.
  intros Hids Hok.
  destruct (getDownloadInfo_ids repos authUser dto ids Hids Hok) as (resp & Hresp & Harch & _).
  exists resp. split; [done|]. rewrite Harch. unfold onePage. intros k item Hk Hlt.
  pose proof (pack_sealed_exceed (targetSizeOf dto) (withMotion repos (getByIds repos ids))
                emptyArchive) as Hsealed.
  rewrite Forall_lookup in Hsealed. apply (Hsealed k).
  rewrite length_app in Hlt. rewrite lookup_app_l in Hk; [done|].
  case_decide; simpl in Hlt; lia.
Qed.

(** ** C3: live photos and their motion parts *)

(** C3, as stated, fails: the motion part is appended to the end of the page,
    so a photo that alone exceeds the threshold is sealed before its motion
    part is packed. *)
Lemma getDownloadInfo_live_photo_split :
  ∃ resp,
    outcome (getDownloadInfo livePhotoStore someUser
               (DownloadDto.mk (Some ["p"]) None None (Some 5))) = inr resp ∧
    DownloadResponseDto.archives resp
      = [DownloadArchiveInfo.mk 10 ["p"]; DownloadArchiveInfo.mk 5 ["m"]] ∧
    ¬ ∃ item, item ∈ DownloadResponseDto.archives resp ∧
        "p" ∈ DownloadArchiveInfo.assetIds item ∧ "m" ∈ DownloadArchiveInfo.assetIds item.
Proof.
  eexists. split; [by vm_compute|]. split; [done|].
  cbn. intros (item & Hitem & Hp & Hm).
  apply elem_of_cons in Hitem as [->|Hitem].
  - cbn in Hm. apply list_elem_of_singleton in Hm. discriminate.
  - apply list_elem_of_singleton in Hitem as ->. cbn in Hp.
    apply list_elem_of_singleton in Hp. discriminate.
Qed.

Lemma onePage_within targetSize working :
  working ≠ [] →
  Forall (λ asset, 0 ≤ fileSize asset) working →
  sumSizes working ≤ targetSize →
  onePage targetSize working
  = [DownloadArchiveInfo.mk (sumSizes working) (AssetEntity.id <$> working)].
Proof.
  intros Hne Hpos Hsum. unfold onePage.
  rewrite (pack_within targetSize working emptyArchive Hpos) by (simpl; lia).
  cbn [fst snd DownloadArchiveInfo.assetIds DownloadArchiveInfo.size emptyArchive app].
  rewrite Z.add_0_l. rewrite decide_True; [done|].
  rewrite length_fmap. destruct working; [done|simpl; lia].
Qed.

Lemma elem_of_concat_2 {A} (x : A) (l : list A) (ls : list (list A)) :
  x ∈ l → l ∈ ls → x ∈ concat ls.
Proof.
  intros Hx Hl. induction Hl as [l ls|l l' ls _ IH]; simpl; apply elem_of_app; auto.
Qed.

Lemma grown_assetIds asset acc x :
  x ∈ DownloadArchiveInfo.assetIds acc ∨ x = AssetEntity.id asset →
  x ∈ DownloadArchiveInfo.assetIds (grown asset acc).
Proof.
  simpl. intros [Hx| ->]; apply elem_of_app; [by left|right; by left].
Qed.

(** The first archive that packing produces continues the accumulator. *)
Lemma pack_head_extends targetSize rest : ∀ acc,
  ∃ item,
    head ((pack targetSize acc rest).1 ++ [(pack targetSize acc rest).2]) = Some item ∧
    ∀ x, x ∈ DownloadArchiveInfo.assetIds acc → x ∈ DownloadArchiveInfo.assetIds item.
Proof.
  induction rest as [|asset rest IH]; intros acc.
  - exists acc. by split.
  - rewrite pack_cons. case_decide; cbn [fst snd].
    + exists (grown asset acc). split; [done|]. intros x Hx. apply grown_assetIds. by left.
    + destruct (IH (grown asset acc)) as (item & Hhead & Hsub). exists item.
      split; [done|]. intros x Hx. apply Hsub, grown_assetIds. by left.
Qed.

(** An asset that is reached before the open archive exceeds the threshold
    is added to the archive that was open at the start. *)
Lemma pack_follower targetSize rest : ∀ acc j motion,
  rest !! j = Some motion →
  (∀ k s, (k < j)%nat →
          runningSizes targetSize (DownloadArchiveInfo.size acc) rest !! k = Some s →
          s ≤ targetSize) →
  ∃ item,
    head ((pack targetSize acc rest).1 ++ [(pack targetSize acc rest).2]) = Some item ∧
    (∀ x, x ∈ DownloadArchiveInfo.assetIds acc → x ∈ DownloadArchiveInfo.assetIds item) ∧
    AssetEntity.id motion ∈ DownloadArchiveInfo.assetIds item.
Proof.
  induction rest as [|asset rest IH]; intros acc j motion Hj Hopen; [done|].
  rewrite pack_cons. destruct j as [|j].
  - injection Hj as ->. case_decide; cbn [fst snd].
    + exists (grown motion acc). split; [done|].
      split; [intros x Hx|]; apply grown_assetIds; auto.
    + destruct (pack_head_extends targetSize rest (grown motion acc)) as (item & Hhead & Hsub).
      exists item. split; [done|].
      split; [intros x Hx|]; apply Hsub, grown_assetIds; auto.
  - assert (Hfirst : DownloadArchiveInfo.size acc + fileSize asset ≤ targetSize).
    { apply (Hopen 0%nat); [lia|done]. }
    rewrite decide_False by (simpl; lia).
    destruct (IH (grown asset acc) j motion Hj) as (item & Hhead & Hsub & Hmotion).
    { intros k s Hk Hs. apply (Hopen (S k)); [lia|].
      cbn [runningSizes lookup list_lookup]. rewrite decide_False by lia. exact Hs. }
    exists item. split; [done|]. split; [|done].
    intros x Hx. apply Hsub, grown_assetIds. by left.
Qed.

(** Two assets of a working list are added to the same archive when the
    open archive stays within the threshold from the first of them up to
    the asset before the second. *)
Lemma pack_same_archive targetSize working : ∀ acc i j photo motion,
  (i < j)%nat →
  working !! i = Some photo →
  working !! j = Some motion →
  (∀ k s, (i ≤ k < j)%nat →
          runningSizes targetSize (DownloadArchiveInfo.size acc) working !! k = Some s →
          s ≤ targetSize) →
  ∃ item,
    item ∈ (pack targetSize acc working).1 ++ [(pack targetSize acc working).2] ∧
    AssetEntity.id photo ∈ DownloadArchiveInfo.assetIds item ∧
    AssetEntity.id motion ∈ DownloadArchiveInfo.assetIds item.
Proof.
  induction working as [|asset rest IH]; intros acc i j photo motion Hij Hi Hj Hopen; [done|].
  destruct j as [|j]; [lia|]. rewrite pack_cons. destruct i as [|i].
  - injection Hi as ->.
    assert (Hfirst : DownloadArchiveInfo.size acc + fileSize photo ≤ targetSize).
    { apply (Hopen 0%nat); [lia|done]. }
    rewrite decide_False by (simpl; lia).
    destruct (pack_follower targetSize rest (grown photo acc) j motion Hj)
      as (item & Hhead & Hsub & Hmotion).
    { intros k s Hk Hs. apply (Hopen (S k)); [lia|].
      cbn [runningSizes lookup list_lookup]. rewrite decide_False by lia. exact Hs. }
    exists item. split; [by eapply head_Some_elem_of|]. split; [|done].
    apply Hsub, grown_assetIds. by right.
  - destruct (IH (if decide (DownloadArchiveInfo.size (grown asset acc) > targetSize)
                  then emptyArchive else grown asset acc) i j photo motion)
      as (item & Hitem & Hphoto & Hmotion); [lia|done|done| |].
    { intros k s Hk Hs. apply (Hopen (S k)); [lia|].
      cbn [runningSizes lookup list_lookup]. simpl in Hs.
      by destruct (decide (DownloadArchiveInfo.size acc + fileSize asset > targetSize)). }
    exists item. split; [|done].
    case_decide; cbn [fst snd]; [by right|done].
Qed.

Lemma onePage_elem targetSize working item :
  item ∈ (pack targetSize emptyArchive working).1 ++ [(pack targetSize emptyArchive working).2] →
  DownloadArchiveInfo.assetIds item ≠ [] →
  item ∈ onePage targetSize working.
Proof.
  intros Hitem Hne. unfold onePage. apply elem_of_app.
  apply elem_of_app in Hitem as [Hitem|Hitem]; [by left|right].
  apply list_elem_of_singleton in Hitem as ->. rewrite decide_True; [by left|].
  destruct (DownloadArchiveInfo.assetIds (pack targetSize emptyArchive working).2);
    [done|simpl; lia].
Qed.

(** C3 (amended): for assets selected by id, the archives list, in order,
    the ids of the page's assets followed by the ids of the motion assets
    that the store returns for the page, and no other id, so a motion asset
    that the store does not return is in no archive; an asset of the page,
    such as a live photo, and a fetched motion asset are in the same archive
    whenever the open archive stays within the threshold after every asset
    from that asset of the page up to the asset before the motion asset, so
    that no archive is sealed between them; in particular, when no size is
    negative and all sizes together do not exceed the threshold, one archive
    holds everything. *)
Theorem getDownloadInfo_live_photo_same_archive repos authUser dto ids :
  DownloadDto.assetIds dto = Some ids →
  hasPermission repos authUser ASSET_DOWNLOAD ids = true →
  ∃ resp, outcome (getDownloadInfo repos authUser dto) = inr resp ∧
    concat (DownloadArchiveInfo.assetIds <$> DownloadResponseDto.archives resp)
      = (AssetEntity.id <$> getByIds repos ids)
          ++ (AssetEntity.id <$> fetchedMotion repos (getByIds repos ids)) ∧
    (∀ item m,
       item ∈ DownloadResponseDto.archives resp →
       m ∈ DownloadArchiveInfo.assetIds item →
       m ∈ AssetEntity.id <$> getByIds repos ids ∨
       m ∈ AssetEntity.id <$> fetchedMotion repos (getByIds repos ids)) ∧
    (∀ i j photo motion,
       getByIds repos ids !! i = Some photo →
       fetchedMotion repos (getByIds repos ids) !! j = Some motion →
       (∀ k s, (i ≤ k < length (getByIds repos ids) + j)%nat →
               runningSizes (targetSizeOf dto) 0
                 (getByIds repos ids ++ fetchedMotion repos (getByIds repos ids)) !! k = Some s →
               s ≤ targetSizeOf dto) →
       ∃ item,
         item ∈ DownloadResponseDto.archives resp ∧
         AssetEntity.id photo ∈ DownloadArchiveInfo.assetIds item ∧
         AssetEntity.id motion ∈ DownloadArchiveInfo.assetIds item) ∧
    (getByIds repos ids ≠ [] →
     Forall (λ asset, 0 ≤ fileSize asset)
       (getByIds repos ids ++ fetchedMotion repos (getByIds repos ids)) →
     sumSizes (getByIds repos ids) + sumSizes (fetchedMotion repos (getByIds repos ids))
       ≤ targetSizeOf dto →
     DownloadResponseDto.archives resp
     = [DownloadArchiveInfo.mk
          (sumSizes (getByIds repos ids) + sumSizes (fetchedMotion repos (getByIds repos ids)))
          ((AssetEntity.id <$> getByIds repos ids)
             ++ (AssetEntity.id <$> fetchedMotion repos (getByIds repos ids)))]).
Proof.
  intros Hids Hok.
  destruct (getDownloadInfo_ids repos authUser dto ids Hids Hok) as (resp & Hresp & Harch & _).
  rewrite withMotion_fetched in Harch.
  assert (Hconcat : concat (DownloadArchiveInfo.assetIds <$> DownloadResponseDto.archives resp)
            = (AssetEntity.id <$> getByIds repos ids)
                ++ (AssetEntity.id <$> fetchedMotion repos (getByIds repos ids))).
  { by rewrite Harch, onePage_assetIds, fmap_app. }
  exists resp. split; [done|]. split; [done|]. split_and!.
  - intros item m Hitem Hm. apply elem_of_app. rewrite <-Hconcat.
    apply (elem_of_concat_2 _ (DownloadArchiveInfo.assetIds item)); [done|].
    by apply list_elem_of_fmap_2.
  - intros i j photo motion Hi Hj Hopen. rewrite Harch.
    destruct (pack_same_archive (targetSizeOf dto)
                (getByIds repos ids ++ fetchedMotion repos (getByIds repos ids))
                emptyArchive i (length (getByIds repos ids) + j) photo motion)
      as (item & Hitem & Hphoto & Hmotion).
    + apply lookup_lt_Some in Hi. lia.
    + by apply lookup_app_l_Some.
    + rewrite lookup_app_r by lia.
      by replace (length (getByIds repos ids) + j - length (getByIds repos ids))%nat with j by lia.
    + exact Hopen.
    + exists item. split; [|done]. apply onePage_elem; [done|].
      intros Hnil. rewrite Hnil in Hphoto. by apply elem_of_nil in Hphoto.
  - intros Hne Hpos Hsum. rewrite Harch, onePage_within.
    + by rewrite sumSizes_app, fmap_app.
    + intros Hnil. by apply app_eq_nil in Hnil as [? _].
    + done.
    + by rewrite sumSizes_app.
Qed.

Lemma getDownloadInfo_live_photo_same_archive_witness :
  ∃ resp item,
    outcome (getDownloadInfo livePhotoStore someUser
               (DownloadDto.mk (Some ["p"]) None None (Some 11))) = inr resp ∧
    concat (DownloadArchiveInfo.assetIds <$> DownloadResponseDto.archives resp) = ["p"; "m"] ∧
    item ∈ DownloadResponseDto.archives resp ∧
    "p" ∈ DownloadArchiveInfo.assetIds item ∧
    "m" ∈ DownloadArchiveInfo.assetIds item.
Proof.
  destruct (getDownloadInfo_live_photo_same_archive livePhotoStore someUser
              (DownloadDto.mk (Some ["p"]) None None (Some 11)) ["p"] eq_refl eq_refl)
    as (resp & Hresp & Hconcat & _ & Hsame & _).
  destruct (Hsame 0%nat 0%nat (assetOf "p" 10 (Some "m")) (assetOf "m" 5 None) eq_refl eq_refl)
    as (item & Hitem & Hp & Hm).
  { intros k s Hk Hs. destruct k as [|k]; [|simpl in Hk; lia].
    vm_compute in Hs. injection Hs as <-. vm_compute. discriminate. }
  exists resp, item. split_and!; [exact Hresp|exact Hconcat|exact Hitem|exact Hp|exact Hm].
Defined.

(** ** C4: thresholds that are not positive *)

(** C4, as stated, fails at a threshold of 0: [dto.archiveSize || ...] takes
    0 for an absent size, the default of 4 GiB applies, and three assets of
    one byte each share one archive. *)
Lemma getDownloadInfo_zero_archiveSize :
  ∃ resp,
    outcome (getDownloadInfo threeAssetStore someUser
               (DownloadDto.mk (Some ["x"; "y"; "z"]) None None (Some 0))) = inr resp ∧
    targetSizeOf (DownloadDto.mk (Some ["x"; "y"; "z"]) None None (Some 0)) = 4294967296 ∧
    DownloadResponseDto.archives resp = [DownloadArchiveInfo.mk 3 ["x"; "y"; "z"]] ∧
    length (DownloadResponseDto.archives resp) ≠ 3%nat.
Proof. eexists. split; [by vm_compute|]. split; [by vm_compute|]. split; [done|]. simpl. lia. Qed.

Lemma pageEnd_empty st :
  deref (heap st) (archive st) = emptyArchive → pageEnd st = st.
Proof. intros Hacc. unfold pageEnd. rewrite Hacc. by rewrite decide_False by (simpl; lia). Qed.

Lemma runPages_negative repos targetSize pages : ∀ st,
  targetSize < 0 →
  Forall (Forall (λ asset, 0 ≤ fileSize asset)) (withMotion repos <$> pages) →
  unaliased st →
  deref (heap st) (archive st) = emptyArchive →
  let st' := runPages repos targetSize pages st in
  unaliased st' ∧
  deref (heap st') (archive st') = emptyArchive ∧
  deref (heap st') <$> archives st'
  = (deref (heap st) <$> archives st)
      ++ (singleArchive <$> concat (withMotion repos <$> pages)).
Proof.
  induction pages as [|page pages IH]; intros st Hneg Hpos Hst Hacc.
  - simpl. by rewrite app_nil_r.
  - rewrite fmap_cons in Hpos. apply Forall_cons in Hpos as [Hpos1 Hpos].
    destruct (foldl_addAsset_pack targetSize (withMotion repos page) st Hst)
      as (Hst1 & Hrefs1 & Hacc1).
    rewrite Hacc, (pack_negative _ _ Hneg Hpos1) in Hrefs1, Hacc1. cbn [fst snd] in *.
    cbn zeta. unfold runPages. cbn [foldl]. rewrite (pageEnd_empty _ Hacc1).
    destruct (IH _ Hneg Hpos Hst1 Hacc1) as (Hst' & Hacc' & Hrefs').
    unfold runPages in *. split_and!; [done|done|].
    rewrite Hrefs', Hrefs1, fmap_cons. cbn [concat]. by rewrite fmap_app, <-app_assoc.
Qed.

(** C4 (amended): for a threshold below 0 and assets without negative sizes,
    every asset of every page, fetched motion parts included, is sealed in
    an archive of its own, in order; so three assets without motion parts
    yield three archives of one asset each.  A threshold of 0 is replaced by
    the default. *)
Theorem getDownloadInfo_negative_archiveSize repos authUser dto gen targetSize :
  DownloadDto.archiveSize dto = Some targetSize →
  targetSize < 0 →
  outcome (getDownloadAssets repos authUser dto) = inr gen →
  Forall (Forall (λ asset, 0 ≤ fileSize asset)) (withMotion repos <$> yields gen) →
  ∃ resp, outcome (getDownloadInfo repos authUser dto) = inr resp ∧
    DownloadResponseDto.archives resp
      = singleArchive <$> concat (withMotion repos <$> yields gen).
Proof.
  intros Hsize Hneg Hgen Hpos. eexists. split.
  - by apply getDownloadInfo_runPages.
  - assert (HT : targetSizeOf dto = targetSize).
    { unfold targetSizeOf. rewrite Hsize. rewrite decide_False; [done|lia]. }
    rewrite HT.
    destruct (runPages_negative repos targetSize (yields gen) initialPlan Hneg Hpos
                unaliased_initialPlan eq_refl) as (_ & _ & Hrefs).
    unfold responseOf. cbn [DownloadResponseDto.archives]. by rewrite Hrefs.
Qed.

Lemma getDownloadInfo_negative_archiveSize_witness :
  ∃ resp, outcome (getDownloadInfo threeAssetStore someUser
                     (DownloadDto.mk (Some ["x"; "y"; "z"]) None None (Some (-1)))) = inr resp ∧
    DownloadResponseDto.archives resp
      = [DownloadArchiveInfo.mk 1 ["x"]; DownloadArchiveInfo.mk 1 ["y"];
         DownloadArchiveInfo.mk 1 ["z"]].
Proof.
  apply (getDownloadInfo_negative_archiveSize threeAssetStore someUser
           (DownloadDto.mk (Some ["x"; "y"; "z"]) None None (Some (-1)))
           [resolve (getByIds threeAssetStore ["x"; "y"; "z"])] (-1)).
  - reflexivity.
  - lia.
  - reflexivity.
  - vm_compute. repeat constructor; discriminate.
Defined.

(** ** C10: no empty archive *)

Lemma deref_out_of_range (h : list DownloadArchiveInfo.t) r :
  (length h ≤ r)%nat → deref h r = emptyArchive.
Proof. intros Hr. unfold deref. by rewrite lookup_ge_None_2. Qed.

Lemma addAsset_pushedNonEmpty targetSize st asset :
  pushedNonEmpty st → pushedNonEmpty (addAsset targetSize st asset).
Proof.
  intros [Hcur Hrefs]. unfold addAsset.
  set (h1 := alter (addSize (fileSize asset)) (archive st) (heap st)).
  set (h2 := alter (pushId (AssetEntity.id asset)) (archive st) h1).
  assert (Hlen : length h2 = length (heap st)).
  { unfold h2, h1. by rewrite !length_alter. }
  assert (Hacc : DownloadArchiveInfo.assetIds (deref h2 (archive st)) ≠ []).
  { unfold h2. rewrite deref_alter_eq by (unfold h1; by rewrite length_alter).
    simpl. by destruct (DownloadArchiveInfo.assetIds (deref h1 (archive st))). }
  assert (Hkeep : ∀ r, DownloadArchiveInfo.assetIds (deref (heap st) r) ≠ [] →
                       DownloadArchiveInfo.assetIds (deref h2 r) ≠ []).
  { intros r Hr. destruct (decide (r = archive st)) as [->|Hne]; [done|].
    unfold h2, h1. by rewrite !deref_alter_ne. }
  assert (Hin : ∀ r, DownloadArchiveInfo.assetIds (deref h2 r) ≠ [] → (r < length h2)%nat).
  { intros r Hr. destruct (decide (r < length h2)%nat); [done|].
    rewrite deref_out_of_range in Hr by lia. done. }
  case_decide; split; simpl.
  - rewrite length_app. simpl. lia.
  - apply Forall_app. split.
    + eapply Forall_impl; [exact Hrefs|]. intros r Hr. simpl.
      rewrite deref_app_l; auto.
    + constructor; [|constructor]. rewrite deref_app_l; auto.
  - lia.
  - eapply Forall_impl; [exact Hrefs|]. auto.
Qed.

Lemma foldl_addAsset_pushedNonEmpty targetSize assets : ∀ st,
  pushedNonEmpty st → pushedNonEmpty (foldl (addAsset targetSize) st assets).
Proof.
  induction assets as [|asset rest IH]; intros st Hst; [done|].
  cbn [foldl]. by apply IH, addAsset_pushedNonEmpty.
Qed.

Lemma pageEnd_pushedNonEmpty st : pushedNonEmpty st → pushedNonEmpty (pageEnd st).
Proof.
  intros [Hcur Hrefs]. unfold pageEnd. case_decide as Hlen; [|done].
  split; simpl; [done|]. apply Forall_app. split; [done|].
  constructor; [|constructor].
  destruct (DownloadArchiveInfo.assetIds (deref (heap st) (archive st))); [simpl in Hlen; lia|done].
Qed.

Lemma forAwait_pushedNonEmpty repos targetSize gen : ∀ st st',
  pushedNonEmpty st →
  outcome (forAwait repos targetSize gen st) = inr st' →
  pushedNonEmpty st'.
Proof.
  induction gen as [|next gen IH]; intros st st' Hst.
  - cbn. by intros [= <-].
  - rewrite forAwait_cons. destruct (next.1) as [e|assets]; [done|].
    apply IH. by apply pageEnd_pushedNonEmpty, foldl_addAsset_pushedNonEmpty.
Qed.

(** C10: every archive of a response of [getDownloadInfo], whichever way the
    assets were selected and paged, holds at least one asset id. *)
Theorem getDownloadInfo_archives_nonempty repos authUser dto resp :
  outcome (getDownloadInfo repos authUser dto) = inr resp →
  Forall (λ item, DownloadArchiveInfo.assetIds item ≠ []) (DownloadResponseDto.archives resp).
Proof.
  rewrite getDownloadInfo_outcome.
  destruct (outcome (getDownloadAssets repos authUser dto)) as [e|gen]; [done|].
  destruct (outcome (forAwait repos (targetSizeOf dto) gen initialPlan)) as [e|st] eqn:Hst;
    [done|].
  intros [= <-]. apply forAwait_pushedNonEmpty in Hst as [_ Hrefs].
  - unfold responseOf. cbn [DownloadResponseDto.archives]. by apply Forall_fmap.
  - split; simpl; [lia|constructor].
Qed.

Lemma getDownloadInfo_archives_nonempty_witness :
  Forall (λ item, DownloadArchiveInfo.assetIds item ≠ [])
    [DownloadArchiveInfo.mk 2 ["a"; "b"]; DownloadArchiveInfo.mk 2 ["a"; "b"]].
Proof.
  apply (getDownloadInfo_archives_nonempty twoPageStore someUser
           (DownloadDto.mk None (Some "album") None (Some 10))
           (DownloadResponseDto.mk 4
              [DownloadArchiveInfo.mk 2 ["a"; "b"]; DownloadArchiveInfo.mk 2 ["a"; "b"]])).
  reflexivity.
Defined.

(** ** C5: selection of the assets and its access check *)

Lemma await_trace {A B} (c : Async A) (k : A → Async B) :
  trace (await c k)
  = trace c ++ match outcome c with inl _ => [] | inr a => trace (k a) end.
Proof.
  unfold trace, outcome, await. destruct c as [[e|a] evs]; simpl; [|done].
  by rewrite app_nil_r.
Qed.

Lemma forAwait_noPermissionCheck repos targetSize gen : ∀ st,
  Forall (λ next : Async (list AssetEntity.t), noPermissionCheck (trace next)) gen →
  noPermissionCheck (trace (forAwait repos targetSize gen st)).
Proof.
  induction gen as [|next gen IH]; intros st Hgen; [constructor|].
  apply Forall_cons in Hgen as [Hnext Hgen]. cbn [forAwait].
  rewrite await_trace. apply Forall_app. split; [done|].
  destruct (outcome next) as [e|assets]; [constructor|].
  rewrite await_trace. apply Forall_app. split.
  - rewrite planPage_trace. destruct (motionIdsOf assets); repeat constructor.
  - rewrite planPage_outcome. by apply IH.
Qed.

Lemma usePagination_noPermissionCheck {A} (pages : list A) : ∀ getNextPage,
  (∀ k, isPermissionCheck (getNextPage k) = false) →
  Forall (λ next : Async A, noPermissionCheck (trace next)) (usePagination getNextPage pages).
Proof.
  unfold usePagination.
  induction pages as [|p pages IH]; intros getNextPage Hev; [constructor|].
  cbn [imap]. constructor.
  - rewrite await_call. repeat constructor. apply Hev.
  - apply (IH (λ k, getNextPage (S k))). intros k. apply Hev.
Qed.

Lemma getDownloadInfo_trace repos authUser dto :
  trace (getDownloadInfo repos authUser dto)
  = trace (getDownloadAssets repos authUser dto)
      ++ match outcome (getDownloadAssets repos authUser dto) with
         | inl _ => []
         | inr gen => trace (forAwait repos (targetSizeOf dto) gen initialPlan)
         end.
Proof.
  unfold getDownloadInfo. rewrite await_trace. f_equal.
  destruct (outcome (getDownloadAssets repos authUser dto)) as [e|gen]; [done|].
  rewrite await_trace.
  destruct (outcome (forAwait repos (targetSizeOf dto) gen initialPlan)); simpl;
    by rewrite app_nil_r.
Qed.

(** What a selection does once its mode is fixed: [gen] is the generator the
    mode returns when its check passes, [calls] the store calls made before
    the generator is returned. *)
Lemma selects_intro repos authUser dto p target calls gen :
  getDownloadAssets repos authUser dto
  = await (requirePermission repos authUser p target) (λ _, (inr gen, calls)) →
  noPermissionCheck calls →
  Forall (λ next : Async (list AssetEntity.t), noPermissionCheck (trace next)) gen →
  selects repos authUser dto p target (yields gen).
Proof.
  intros Hassets Hcalls Hgen. unfold selects.
  rewrite getDownloadInfo_trace, getDownloadInfo_outcome, Hassets.
  destruct (hasPermission repos authUser p target) eqn:Hok.
  - rewrite (requirePermission_granted _ _ _ _ Hok). cbn.
    eexists. split; [done|]. split; [|by eexists].
    apply Forall_app. split; [done|]. by apply forAwait_noPermissionCheck.
  - rewrite (requirePermission_denied _ _ _ _ Hok). cbn.
    eexists. split; [done|]. split; [constructor|done].
Qed.

(** C5: a request that supplies none of [assetIds], [albumId], [userId] is
    rejected with the bad-request exception before anything is called; with
    [assetIds] the assets are selected by id, else with [albumId] by album,
    else with [userId] by owner, whatever else is supplied; the permission of
    the selected mode is checked first and only once, and a failed check
    leaves the store untouched. *)
Theorem getDownloadInfo_selection repos authUser dto :
  (DownloadDto.assetIds dto = None →
   truthy (DownloadDto.albumId dto) = None →
   truthy (DownloadDto.userId dto) = None →
   getDownloadInfo repos authUser dto
   = (inl (BadRequestException "assetIds, albumId, or userId is required"), [])) ∧
  (∀ ids, DownloadDto.assetIds dto = Some ids →
     selects repos authUser dto ASSET_DOWNLOAD ids [getByIds repos ids]) ∧
  (∀ albumId, DownloadDto.assetIds dto = None →
     truthy (DownloadDto.albumId dto) = Some albumId →
     selects repos authUser dto ALBUM_DOWNLOAD [albumId] (getByAlbumId repos albumId)) ∧
  (∀ userId, DownloadDto.assetIds dto = None →
     truthy (DownloadDto.albumId dto) = None →
     truthy (DownloadDto.userId dto) = Some userId →
     selects repos authUser dto LIBRARY_DOWNLOAD [userId] (getByUserId repos userId)).
Proof.
  split_and!.
  - intros Hids Halbum Huser. unfold getDownloadInfo, getDownloadAssets.
    by rewrite Hids, Halbum, Huser.
  - intros ids Hids.
    apply (selects_intro repos authUser dto ASSET_DOWNLOAD ids [GetByIds ids]
             [resolve (getByIds repos ids)]).
    + unfold getDownloadAssets. by rewrite Hids.
    + repeat constructor.
    + repeat constructor.
  - intros albumId Hids Halbum.
    destruct (usePagination_yields (getByAlbumId repos albumId) (λ k, GetByAlbumId k albumId))
      as [Hpages _].
    rewrite <-Hpages. apply (selects_intro repos authUser dto ALBUM_DOWNLOAD [albumId] []).
    + unfold getDownloadAssets. by rewrite Hids, Halbum.
    + constructor.
    + by apply usePagination_noPermissionCheck.
  - intros userId Hids Halbum Huser.
    destruct (usePagination_yields (getByUserId repos userId) (λ k, GetByUserId k userId))
      as [Hpages _].
    rewrite <-Hpages. apply (selects_intro repos authUser dto LIBRARY_DOWNLOAD [userId] []).
    + unfold getDownloadAssets. by rewrite Hids, Halbum, Huser.
    + constructor.
    + by apply usePagination_noPermissionCheck.
Qed.

Lemma getDownloadInfo_selection_witness :
  getDownloadInfo twoPageStore someUser (DownloadDto.mk None (Some "") None None)
  = (inl (BadRequestException "assetIds, albumId, or userId is required"), []) ∧
  selects threeAssetStore someUser
    (DownloadDto.mk (Some ["x"]) (Some "album") (Some "owner") None)
    ASSET_DOWNLOAD ["x"] [getByIds threeAssetStore ["x"]] ∧
  selects twoPageStore someUser
    (DownloadDto.mk None (Some "album") (Some "owner") None)
    ALBUM_DOWNLOAD ["album"] (getByAlbumId twoPageStore "album").
Proof.
  split_and!.
  - apply (getDownloadInfo_selection twoPageStore someUser
             (DownloadDto.mk None (Some "") None None)); reflexivity.
  - apply (getDownloadInfo_selection threeAssetStore someUser
             (DownloadDto.mk (Some ["x"]) (Some "album") (Some "owner") None)); reflexivity.
  - apply (getDownloadInfo_selection twoPageStore someUser
             (DownloadDto.mk None (Some "album") (Some "owner") None)); reflexivity.
Defined.

(** ** C6 and C7: the memory lane *)

Lemma settleAll_fulfilled {A} (values : list A) completion : ∀ results,
  settleAll completion (inr <$> values : list (Promise A)) results
  = inr (fulfil values results completion).
Proof.
  induction completion as [|i completion IH]; intros results; [done|].
  cbn [settleAll fulfil foldl]. rewrite list_lookup_fmap.
  destruct (values !! i) as [v|]; cbn; apply IH.
Qed.

Lemma fulfil_length {A} (values : list A) completion : ∀ results,
  length (fulfil values results completion) = length results.
Proof.
  induction completion as [|i completion IH]; intros results; [done|].
  cbn [fulfil foldl]. fold (fulfil values). destruct (values !! i).
  - fold (fulfil values (<[i:=Some a]> results) completion). by rewrite IH, length_insert.
  - apply IH.
Qed.

Lemma fulfil_lookup {A} (values : list A) completion : ∀ results i v,
  length results = length values →
  values !! i = Some v →
  i ∈ completion →
  fulfil values results completion !! i = Some (Some v).
Proof.
  assert (Hout : ∀ completion results i,
            i ∉ completion → fulfil values results completion !! i = results !! i).
  { clear. induction completion as [|j completion IH]; intros results i Hi; [done|].
    apply not_elem_of_cons in Hi as [Hne Hi]. cbn [fulfil foldl].
    destruct (values !! j);
      [fold (fulfil values (<[j:=Some a]> results) completion)
      |fold (fulfil values results completion)]; rewrite IH by done; [|done].
    by rewrite list_lookup_insert_ne. }
  induction completion as [|j completion IH]; intros results i v Hlen Hv Hi.
  - by apply elem_of_nil in Hi.
  - cbn [fulfil foldl].
    destruct (decide (i ∈ completion)) as [Hin|Hnin].
    + destruct (values !! j);
        [fold (fulfil values (<[j:=Some a]> results) completion)
        |fold (fulfil values results completion)]; apply IH; try done.
      by rewrite length_insert.
    + apply elem_of_cons in Hi as [->|Hi]; [|done]. rewrite Hv.
      fold (fulfil values (<[j:=Some v]> results) completion).
      rewrite Hout by done. apply list_lookup_insert_eq.
      rewrite Hlen. by eapply lookup_lt_Some.
Qed.

(** [Promise.all] over fulfilled promises gives their values in the order of
    the promises, whatever the order in which they settle. *)
Lemma Promise_all_fulfilled {A} (values : list A) completion :
  (∀ i, (i < length values)%nat → i ∈ completion) →
  Promise_all completion (inr <$> values : list (Promise A)) = Some (inr values).
Proof.
  intros Hall. unfold Promise_all. rewrite settleAll_fulfilled, length_fmap.
  assert (Hres : fulfil values (replicate (length values) None) completion = Some <$> values).
  { apply list_eq. intros i. rewrite list_lookup_fmap.
    destruct (values !! i) as [v|] eqn:Hv; simpl.
    - apply fulfil_lookup; [by rewrite length_replicate|done|].
      apply Hall. by eapply lookup_lt_Some.
    - apply lookup_ge_None_2. rewrite fulfil_length, length_replicate.
      by apply lookup_ge_None_1. }
  rewrite Hres. by rewrite mapM_fmap_Some.
Qed.

Lemma Promise_all_nil {A} completion :
  Promise_all completion ([] : list (Promise A)) = Some (inr []).
Proof.
  unfold Promise_all. simpl.
  assert (Hs : settleAll completion ([] : list (Promise A)) [] = inr []).
  { induction completion as [|i completion IH]; [done|]. cbn [settleAll]. by rewrite lookup_nil. }
  by rewrite Hs.
Qed.

Section MemoryLaneProofs.
Context {AssetResponseDto : Type}.
Context (mapAsset : AssetEntity.t → AssetResponseDto).
Context (minusYears : Z → Z → Z).

Lemma yearsTitle_one : yearsTitle 1 = "1 year since...".
Proof. reflexivity. Qed.

Lemma yearsTitle_more yearsAgo :
  yearsAgo > 1 → yearsTitle yearsAgo = pretty yearsAgo +:+ " years since...".
Proof. intros Hgt. unfold yearsTitle. by rewrite decide_True. Qed.

Lemma requestLoop_fulfilled repos authUser target (assetsAt : Z → list AssetEntity.t) n :
  ∀ i, 1 ≤ i →
  (∀ k, i ≤ k < i + Z.of_nat n →
        getByDate repos (AuthUserDto.id authUser) (minusYears target k) = inr (assetsAt k)) →
  requestLoop mapAsset minusYears repos authUser target n i
  = (inr ((λ k, inr (entryAt mapAsset k (assetsAt k))) <$> seqZ i (Z.of_nat n)),
     (λ k, GetByDate (AuthUserDto.id authUser) (minusYears target k)) <$> seqZ i (Z.of_nat n)).
Proof.
  induction n as [|n IH]; intros i Hi Hget; [done|].
  rewrite seqZ_cons by lia. rewrite !fmap_cons.
  replace (Z.pred (Z.of_nat (S n))) with (Z.of_nat n) by lia.
  cbn [requestLoop]. unfold onRequest. rewrite await_call. cbn [resolve fst snd].
  rewrite Hget by lia. unfold await at 1. cbn [fst snd].
  rewrite (IH (i + 1)) by (try lia; intros k Hk; apply Hget; lia).
  unfold await. cbn [fst snd resolve app]. rewrite app_nil_r.
  replace (Z.succ i) with (i + 1) by lia. f_equal. f_equal. f_equal. f_equal.
  unfold entryAt. f_equal. case_decide as H1; [subst i; reflexivity|].
  apply yearsTitle_more. lia.
Qed.

(** C6: for a year count of at least 1 whose lookups succeed and all
    complete, in whatever order, [getMemoryLane] issues exactly one lookup
    for each of 1, ..., years back, in this order, and returns the entries
    that have assets in ascending order of years; the entry one year back is
    titled "1 year since...", the entry k > 1 years back "k years since...". *)
Theorem getMemoryLane_entries completion repos authUser dto
    (assetsAt : Z → list AssetEntity.t) :
  1 ≤ MemoryLaneDto.years dto →
  (∀ i, (i < Z.to_nat (MemoryLaneDto.years dto))%nat → i ∈ completion) →
  (∀ k, 1 ≤ k ≤ MemoryLaneDto.years dto →
        getByDate repos (AuthUserDto.id authUser) (minusYears (MemoryLaneDto.timestamp dto) k)
        = inr (assetsAt k)) →
  getMemoryLane mapAsset minusYears completion repos authUser dto
  = (Some (inr (filter (λ entry, (0 < length (MemoryLaneResponseDto.assets entry))%nat)
                  ((λ k, entryAt mapAsset k (assetsAt k))
                     <$> seqZ 1 (MemoryLaneDto.years dto)))),
     (λ k, GetByDate (AuthUserDto.id authUser) (minusYears (MemoryLaneDto.timestamp dto) k))
       <$> seqZ 1 (MemoryLaneDto.years dto)).
Proof.
  intros Hyears Hall Hget. unfold getMemoryLane.
  rewrite (requestLoop_fulfilled repos authUser _ assetsAt) by (try lia; intros k Hk; apply Hget; lia).
  rewrite Z2Nat.id by lia. cbn [fst snd].
  replace ((λ k, inr (entryAt mapAsset k (assetsAt k))) <$> seqZ 1 (MemoryLaneDto.years dto))
    with (inr <$> ((λ k, entryAt mapAsset k (assetsAt k)) <$> seqZ 1 (MemoryLaneDto.years dto))
          : list (Promise (MemoryLaneResponseDto.t AssetResponseDto)))
    by (by rewrite <-list_fmap_compose).
  rewrite Promise_all_fulfilled; [done|].
  intros i Hi. apply Hall. by rewrite length_fmap, length_seqZ in Hi.
Qed.

(** C7 (amended): for a year count that is not positive, [getMemoryLane]
    issues no lookup and returns the empty list; it raises no exception. *)
Theorem getMemoryLane_no_years completion repos authUser dto :
  MemoryLaneDto.years dto ≤ 0 →
  getMemoryLane mapAsset minusYears completion repos authUser dto = (Some (inr []), []).
Proof.
  intros Hyears. unfold getMemoryLane.
  replace (Z.to_nat (MemoryLaneDto.years dto)) with O by lia.
  cbn [requestLoop resolve fst snd]. by rewrite Promise_all_nil.
Qed.

End MemoryLaneProofs.

Lemma getMemoryLane_entries_witness :
  getMemoryLane AssetEntity.id yearsBefore [2; 0; 1]%nat anniversaryStore someUser
    (MemoryLaneDto.mk 100000000000 3)
  = (Some (inr [MemoryLaneResponseDto.mk "1 year since..." ["first"];
                MemoryLaneResponseDto.mk "3 years since..." ["third"]]),
     [GetByDate "user" 68464000000; GetByDate "user" 36928000000; GetByDate "user" 5392000000]).
Proof.
  rewrite (getMemoryLane_entries AssetEntity.id yearsBefore [2; 0; 1]%nat anniversaryStore
             someUser (MemoryLaneDto.mk 100000000000 3)
             (λ k, match getByDate anniversaryStore "user" (yearsBefore 100000000000 k) with
                   | inr assets => assets
                   | inl _ => []
                   end)).
  - by vm_compute.
  - simpl. lia.
  - intros i Hi. simpl in Hi.
    destruct i as [|[|[|i]]]; [set_solver..|lia].
  - intros k _. reflexivity.
Defined.

(** C7, as stated, fails: with a year count of 0 the call returns the empty
    list and raises no exception. *)
Lemma getMemoryLane_zero_years_returns :
  getMemoryLane AssetEntity.id yearsBefore [] anniversaryStore someUser
    (MemoryLaneDto.mk 100000000000 0)
  = (Some (inr []), []).
Proof. reflexivity. Qed.

Lemma getMemoryLane_no_years_witness :
  getMemoryLane AssetEntity.id yearsBefore [] anniversaryStore someUser
    (MemoryLaneDto.mk 100000000000 (-2))
  = (Some (inr []), []).
Proof.
  apply (getMemoryLane_no_years AssetEntity.id yearsBefore [] anniversaryStore someUser
           (MemoryLaneDto.mk 100000000000 (-2))).
  simpl. lia.
Defined.

(** ** C8 and C9: entry names of an archive *)

Lemma downloadArchive_granted extname repos authUser dto :
  hasPermission repos authUser ASSET_DOWNLOAD (AssetIdsDto.assetIds dto) = true →
  outcome (downloadArchive extname repos authUser dto)
  = inr (addFiles extname ∅ (getByIds repos (AssetIdsDto.assetIds dto))).
Proof.
  intros Hok. unfold downloadArchive. by rewrite (requirePermission_granted _ _ _ _ Hok).
Qed.

Lemma downloadArchive_outcome extname repos authUser dto entries :
  outcome (downloadArchive extname repos authUser dto) = inr entries →
  entries = addFiles extname ∅ (getByIds repos (AssetIdsDto.assetIds dto)).
Proof.
  destruct (hasPermission repos authUser ASSET_DOWNLOAD (AssetIdsDto.assetIds dto)) eqn:Hok.
  - rewrite downloadArchive_granted by done. by intros [= <-].
  - unfold downloadArchive. by rewrite (requirePermission_denied _ _ _ _ Hok).
Qed.

Section EntryNames.
Context (extname : string → string).

Lemma occurrences_cons asset other earlier :
  occurrences extname asset (other :: earlier)
  = ((if decide (baseName extname other = baseName extname asset) then 1 else 0)
     + occurrences extname asset earlier)%nat.
Proof. unfold occurrences. rewrite filter_cons. by case_decide. Qed.

Lemma addFiles_length assets : ∀ paths : gmap string JsValue,
  length (addFiles extname paths assets) = length assets.
Proof. induction assets as [|a rest IH]; intros paths; simpl; [done|]. by rewrite IH. Qed.

(** The counter that the loop reads for an asset: what the map held at the
    start plus the earlier assets with the same base name. *)
Lemma countFiles_lookup assets : ∀ (counts : gmap string nat) i asset,
  assets !! i = Some asset →
  countFiles extname counts assets !! i
  = Some (AssetEntity.originalPath asset,
          entryName extname asset
            (default 0%nat (counts !! baseName extname asset)
             + occurrences extname asset (take i assets))).
Proof.
  induction assets as [|other rest IH]; intros counts i asset Hi; [done|].
  destruct i as [|i]; cbn [countFiles].
  - injection Hi as ->. cbn. unfold occurrences. simpl. by rewrite Nat.add_0_r.
  - cbn in Hi. cbn [lookup list_lookup]. change (countFiles extname ?p rest !! i) with
      (countFiles extname p rest !! i).
    rewrite (IH _ i asset Hi). cbn [take]. rewrite occurrences_cons.
    f_equal. f_equal. f_equal. case_decide as Heq.
    + rewrite Heq, lookup_insert_eq. simpl. lia.
    + rewrite lookup_insert_ne by done. lia.
Qed.

Lemma objectPrototype_proto : objectPrototype "__proto__" = Some "[object Object]".
Proof. reflexivity. Qed.

(** For base names that are not inherited property names, [paths] holds
    counters only and the loop is the counting loop. *)
Lemma addFiles_countFiles assets : ∀ counts : gmap string nat,
  Forall (ownName extname) assets →
  addFiles extname (JsNumber <$> counts) assets = countFiles extname counts assets.
Proof.
  induction assets as [|asset rest IH]; intros counts Hown; [done|].
  apply Forall_cons in Hown as [Hasset Hown]. unfold ownName in Hasset.
  cbn [addFiles countFiles].
  fold (baseName extname asset).
  assert (Hcount : orZero (getProperty (JsNumber <$> counts) (baseName extname asset))
                   = JsNumber (default 0%nat (counts !! baseName extname asset))).
  { unfold getProperty. rewrite lookup_fmap, Hasset.
    by destruct (counts !! baseName extname asset). }
  rewrite Hcount. cbn [plusOne notZero toText].
  assert (Hset : setProperty (baseName extname asset)
                   (JsNumber (default 0%nat (counts !! baseName extname asset) + 1))
                   (JsNumber <$> counts)
                 = JsNumber <$> <[baseName extname asset :=
                                   (default 0%nat (counts !! baseName extname asset) + 1)%nat]>
                                  counts).
  { unfold setProperty. rewrite decide_False; [by rewrite fmap_insert|].
    intros Heq. rewrite Heq, objectPrototype_proto in Hasset. discriminate Hasset. }
  rewrite Hset, (IH _ Hown). f_equal. f_equal. unfold entryName.
  destruct (default 0%nat (counts !! baseName extname asset)) as [|n]; [|done].
  by rewrite decide_False by lia.
Qed.

Lemma addFiles_empty_countFiles assets :
  Forall (ownName extname) assets →
  addFiles extname ∅ assets = countFiles extname ∅ assets.
Proof. intros Hown. rewrite <-(addFiles_countFiles assets ∅ Hown). by rewrite fmap_empty. Qed.

(** X16: when no base name of the archive is the name of a property that
    objects inherit, each asset is added under its display name followed by
    the extension of its original path; when k >= 1 earlier assets of the
    same archive have the same base name, [+k] is put before the extension;
    three assets named [IMG_0001] with extension [.jpg] are added as
    [IMG_0001.jpg], [IMG_0001+1.jpg] and [IMG_0001+2.jpg]. *)
Theorem downloadArchive_entry_names repos authUser dto :
  hasPermission repos authUser ASSET_DOWNLOAD (AssetIdsDto.assetIds dto) = true →
  Forall (ownName extname) (getByIds repos (AssetIdsDto.assetIds dto)) →
  ∃ entries,
    outcome (downloadArchive extname repos authUser dto) = inr entries ∧
    length entries = length (getByIds repos (AssetIdsDto.assetIds dto)) ∧
    (∀ i asset,
       getByIds repos (AssetIdsDto.assetIds dto) !! i = Some asset →
       ∃ name,
         entries !! i = Some (AssetEntity.originalPath asset, name) ∧
         (occurrences extname asset (take i (getByIds repos (AssetIdsDto.assetIds dto))) = 0%nat →
          name = AssetEntity.originalFileName asset
                   +:+ extname (AssetEntity.originalPath asset)) ∧
         (∀ k, occurrences extname asset (take i (getByIds repos (AssetIdsDto.assetIds dto))) = k →
               (1 ≤ k)%nat →
               name = AssetEntity.originalFileName asset +:+ "+" +:+ pretty k
                        +:+ extname (AssetEntity.originalPath asset))) ∧
    (∀ a b c,
       getByIds repos (AssetIdsDto.assetIds dto) = [a; b; c] →
       Forall (λ asset, AssetEntity.originalFileName asset = "IMG_0001" ∧
                        extname (AssetEntity.originalPath asset) = ".jpg") [a; b; c] →
       entries.*2 = ["IMG_0001.jpg"; "IMG_0001+1.jpg"; "IMG_0001+2.jpg"]).
Proof.
  intros Hok Hown. eexists. split; [by apply downloadArchive_granted|].
  split; [apply addFiles_length|]. split.
  - intros i asset Hi. rewrite (addFiles_empty_countFiles _ Hown).
    eexists. split; [by apply countFiles_lookup|].
    rewrite lookup_empty. cbn [default]. rewrite Nat.add_0_l. unfold entryName. split.
    + intros ->. by rewrite decide_False by lia.
    + intros k -> Hk. by rewrite decide_True by lia.
  - intros a b c Habc Hall. rewrite Habc.
    apply Forall_cons in Hall as [[Hna Hea] Hall].
    apply Forall_cons in Hall as [[Hnb Heb] Hall].
    apply Forall_cons in Hall as [[Hnc Hec] _].
    cbn [addFiles].
    rewrite Hna, Hea, Hnb, Heb, Hnc, Hec. by vm_compute.
Qed.

End EntryNames.

Lemma downloadArchive_entry_names_witness :
  ∃ entries,
    outcome (downloadArchive posixExtname burstStore someUser (AssetIdsDto.mk ["1"; "2"; "3"]))
    = inr entries ∧
    entries.*2 = ["IMG_0001.jpg"; "IMG_0001+1.jpg"; "IMG_0001+2.jpg"].
Proof.
  destruct (downloadArchive_entry_names posixExtname burstStore someUser
              (AssetIdsDto.mk ["1"; "2"; "3"]) eq_refl)
    as (entries & Hout & _ & _ & Hburst).
  { repeat constructor. }
  exists entries. split; [exact Hout|].
  apply (Hburst (fileOf "1" "IMG_0001" ".jpg") (fileOf "2" "IMG_0001" ".jpg")
           (fileOf "3" "IMG_0001" ".jpg")); [reflexivity|].
  repeat constructor.
Defined.

(** C8 at an asset whose display name is [constructor] and whose path has no
    extension: it is the first asset of its base name, so C8 names its entry
    [constructor]; [paths] inherits a property of this name, the counter
    read is that property, and the entry is named after it. *)
Theorem downloadArchive_inherited_name :
  ∃ entries,
    outcome (downloadArchive posixExtname inheritedNameStore someUser (AssetIdsDto.mk ["1"]))
    = inr entries ∧
    getByIds inheritedNameStore ["1"] = [fileOf "1" "constructor" ""] ∧
    baseName posixExtname (fileOf "1" "constructor" "") = "constructor" ∧
    entries = [("/upload/1", "constructor+function Object() { [native code] }")] ∧
    entries.*2 ≠ ["constructor"].
Proof.
  eexists. split; [by vm_compute|]. split; [by vm_compute|]. split; [by vm_compute|].
  split; [done|]. discriminate.
Qed.

(** C9, as stated, fails: the second asset named [a] is added as [a+1.jpg],
    and so is the asset whose own name is [a+1]. *)
Lemma downloadArchive_entry_name_clash :
  ∃ entries,
    outcome (downloadArchive posixExtname clashStore someUser (AssetIdsDto.mk ["1"; "2"; "3"]))
    = inr entries ∧
    entries.*2 = ["a.jpg"; "a+1.jpg"; "a+1.jpg"] ∧
    ¬ NoDup entries.*2.
Proof.
  eexists. split; [by vm_compute|]. split; [by vm_compute|].
  intros Hnd. vm_compute in Hnd.
  apply NoDup_cons in Hnd as [_ Hnd]. apply NoDup_cons in Hnd as [Hin _].
  apply Hin. by left.
Qed.

(** *** Strings *)

Lemma string_app_cons c (s1 s2 : string) : String c s1 +:+ s2 = String c (s1 +:+ s2).
Proof. reflexivity. Qed.

Lemma string_app_nil (s : string) : "" +:+ s = s.
Proof. reflexivity. Qed.

Lemma string_app_assoc (s1 s2 s3 : string) : (s1 +:+ s2) +:+ s3 = s1 +:+ (s2 +:+ s3).
Proof.
  induction s1 as [|c s1 IH]; [done|]. rewrite !string_app_cons. by rewrite IH.
Qed.

Lemma allChars_app P s1 s2 :
  allChars P (s1 +:+ s2) = allChars P s1 && allChars P s2.
Proof.
  induction s1 as [|c s1 IH]; [done|]. rewrite string_app_cons. simpl.
  by rewrite IH, andb_assoc.
Qed.

Lemma pretty_N_char_isDigit x : isDigit (pretty_N_char x) = true.
Proof.
  unfold pretty_N_char.
  destruct x as [|p]; [done|]. do 4 (destruct p as [p|p|]; try done).
Qed.

Lemma pretty_N_go_digits x : ∀ s,
  ∃ d, pretty_N_go x s = d +:+ s ∧ allChars isDigit d = true.
Proof.
  induction (N.lt_wf_0 x) as [x _ IH]; intros s.
  destruct (decide (x = 0)%N) as [->|Hx].
  - exists "". by rewrite pretty_N_go_0.
  - rewrite pretty_N_go_step by lia.
    destruct (IH (x `div` 10)%N) with (s := String (pretty_N_char (x `mod` 10)) s)
      as (d & -> & Hd).
    { apply N.div_lt; lia. }
    exists (d +:+ String (pretty_N_char (x `mod` 10)) ""). split.
    + by rewrite string_app_assoc.
    + rewrite allChars_app, Hd. simpl. by rewrite pretty_N_char_isDigit.
Qed.

Lemma pretty_nat_digits (n : nat) : allChars isDigit (pretty n) = true.
Proof.
  unfold pretty, pretty_nat, pretty, pretty_N. case_decide; [done|].
  destruct (pretty_N_go_digits (N.of_nat n) "") as (d & -> & Hd).
  by rewrite allChars_app, Hd.
Qed.

(** Two strings that agree after a first [+] agree before and after it. *)
Lemma plus_split (n n' r r' : string) :
  allChars notPlus n = true → allChars notPlus n' = true →
  n +:+ String "+" r = n' +:+ String "+" r' → n = n' ∧ r = r'.
Proof.
  revert n'. induction n as [|c n IH]; intros [|c' n'] Hn Hn' Heq; simpl in *.
  - by injection Heq.
  - injection Heq as <- _. by apply andb_prop in Hn' as [? _].
  - injection Heq as -> _. by apply andb_prop in Hn as [? _].
  - injection Heq as -> Heq. apply andb_prop in Hn as [_ Hn].
    apply andb_prop in Hn' as [_ Hn']. by destruct (IH n' Hn Hn' Heq) as [-> ->].
Qed.

(** A run of digits ends where the extension starts. *)
Lemma digits_split (d d' e e' : string) :
  allChars isDigit d = true → allChars isDigit d' = true →
  startsWithDigit e = false → startsWithDigit e' = false →
  d +:+ e = d' +:+ e' → d = d' ∧ e = e'.
Proof.
  revert d'. induction d as [|c d IH]; intros [|c' d'] Hd Hd' He He' Heq;
    rewrite ?string_app_cons, ?string_app_nil in Heq; simpl in Hd, Hd'.
  - done.
  - subst e. simpl in He. apply andb_prop in Hd' as [Hc _]. congruence.
  - subst e'. simpl in He'. apply andb_prop in Hd as [Hc _]. congruence.
  - injection Heq as -> Heq. apply andb_prop in Hd as [_ Hd].
    apply andb_prop in Hd' as [_ Hd']. by destruct (IH d' Hd Hd' He He' Heq) as [-> ->].
Qed.

Lemma allChars_notPlus_no_plus (n r : string) :
  allChars notPlus (n +:+ "+" +:+ r) = false.
Proof.
  rewrite allChars_app. change ("+" +:+ r) with (String "+" r).
  by rewrite andb_false_r.
Qed.

Section DistinctNames.
Context (extname : string → string).

Lemma entryName_inj asset asset' count count' :
  plainName extname asset → plainName extname asset' →
  entryName extname asset count = entryName extname asset' count' →
  baseName extname asset = baseName extname asset' ∧ count = count'.
Proof.
  intros (Hn & He & Hd & _) (Hn' & He' & Hd' & _). unfold entryName, baseName.
  repeat case_decide.
  - intros Heq. apply plus_split in Heq as [Hname Heq]; [|done..].
    apply digits_split in Heq as [Hcount Hext];
      [|apply pretty_nat_digits|apply pretty_nat_digits|done|done].
    apply (inj pretty) in Hcount. by rewrite Hname, Hext.
  - intros Heq. exfalso.
    assert (Hplain : allChars notPlus (AssetEntity.originalFileName asset'
                       +:+ extname (AssetEntity.originalPath asset')) = true).
    { by rewrite allChars_app, Hn', He'. }
    rewrite <-Heq in Hplain. by rewrite allChars_notPlus_no_plus in Hplain.
  - intros Heq. exfalso.
    assert (Hplain : allChars notPlus (AssetEntity.originalFileName asset
                       +:+ extname (AssetEntity.originalPath asset)) = true).
    { by rewrite allChars_app, Hn, He. }
    rewrite Heq in Hplain. by rewrite allChars_notPlus_no_plus in Hplain.
  - intros Heq. split; [done|lia].
Qed.

Lemma producedFrom_insert (paths : gmap string nat) key name :
  producedFrom extname (<[key := (default 0%nat (paths !! key) + 1)%nat]> paths) name →
  producedFrom extname paths name.
Proof.
  intros (asset & count & Hplain & -> & Hcount). exists asset, count.
  split_and!; [done|done|].
  destruct (decide (key = baseName extname asset)) as [->|Hne].
  - rewrite lookup_insert_eq in Hcount. simpl in Hcount. lia.
  - by rewrite lookup_insert_ne in Hcount.
Qed.

Lemma countFiles_producedFrom assets : ∀ (paths : gmap string nat) name,
  Forall (plainName extname) assets →
  name ∈ (countFiles extname paths assets).*2 →
  producedFrom extname paths name.
Proof.
  induction assets as [|asset rest IH]; intros paths name Hplain Hin.
  - by apply elem_of_nil in Hin.
  - apply Forall_cons in Hplain as [Hasset Hplain]. cbn [countFiles] in Hin.
    rewrite fmap_cons in Hin. apply elem_of_cons in Hin as [->|Hin].
    + exists asset, (default 0%nat (paths !! baseName extname asset)). by split_and!.
    + eapply producedFrom_insert, IH; done.
Qed.

Lemma countFiles_NoDup assets : ∀ paths : gmap string nat,
  Forall (plainName extname) assets →
  NoDup (countFiles extname paths assets).*2.
Proof.
  induction assets as [|asset rest IH]; intros paths Hplain; [constructor|].
  apply Forall_cons in Hplain as [Hasset Hplain]. cbn [countFiles]. rewrite fmap_cons.
  constructor; [|by apply IH].
  intros Hin. apply countFiles_producedFrom in Hin as (asset' & count' & Hasset' & Heq & Hcount);
    [|done].
  cbn [snd] in Heq. apply entryName_inj in Heq as [Hbase <-]; [|done..].
  rewrite <-Hbase, lookup_insert_eq in Hcount. simpl in Hcount. lia.
Qed.

(** C9 (amended): when no display name and no extension of the assets of an
    archive contains [+], no extension starts with a digit and no base name
    is the name of a property that objects inherit, the entry names passed
    to the archive writer in one call are pairwise distinct. *)
Theorem downloadArchive_names_distinct repos authUser dto entries :
  Forall (plainName extname) (getByIds repos (AssetIdsDto.assetIds dto)) →
  outcome (downloadArchive extname repos authUser dto) = inr entries →
  NoDup entries.*2.
Proof.
  intros Hplain Hout. rewrite (downloadArchive_outcome _ _ _ _ _ Hout).
  rewrite addFiles_empty_countFiles.
  - by apply countFiles_NoDup.
  - eapply Forall_impl; [exact Hplain|]. by intros asset (_ & _ & _ & Hown).
Qed.

End DistinctNames.

Lemma downloadArchive_names_distinct_witness :
  NoDup ["IMG_0001.jpg"; "IMG_0001+1.jpg"; "IMG_0001+2.jpg"].
Proof.
  apply (downloadArchive_names_distinct posixExtname burstStore someUser
           (AssetIdsDto.mk ["1"; "2"; "3"])
           [("/upload/1.jpg", "IMG_0001.jpg"); ("/upload/2.jpg", "IMG_0001+1.jpg");
            ("/upload/3.jpg", "IMG_0001+2.jpg")]).
  - repeat constructor.
  - by vm_compute.
Defined.

(** * Further properties of the service *)

(** ** getDownloadInfo on one page *)

Lemma getDownloadInfo_one_page_sealed_exceed_witness :
  ∃ resp, outcome (getDownloadInfo threeAssetStore someUser
                     (DownloadDto.mk (Some ["x"; "y"; "z"]) None None (Some 1))) = inr resp ∧
    ∀ k item,
      DownloadResponseDto.archives resp !! k = Some item →
      (S k < length (DownloadResponseDto.archives resp))%nat →
      DownloadArchiveInfo.size item > 1.
Proof.
  apply (getDownloadInfo_one_page_sealed_exceed threeAssetStore someUser
           (DownloadDto.mk (Some ["x"; "y"; "z"]) None None (Some 1)) ["x"; "y"; "z"]);
    reflexivity.
Defined.

Lemma grown_last asset acc :
  last (DownloadArchiveInfo.assetIds (grown asset acc)) = Some (AssetEntity.id asset).
Proof. simpl. apply last_snoc. Qed.

(** Packing from an accumulator within the threshold: a sealed archive is
    within the threshold once its last asset is taken out, and the open
    accumulator is within the threshold. *)
Lemma pack_bound targetSize assets : ∀ acc,
  0 ≤ targetSize →
  DownloadArchiveInfo.size acc ≤ targetSize →
  Forall (λ item, ∃ asset, asset ∈ assets ∧
            last (DownloadArchiveInfo.assetIds item) = Some (AssetEntity.id asset) ∧
            DownloadArchiveInfo.size item - fileSize asset ≤ targetSize)
         (pack targetSize acc assets).1 ∧
  DownloadArchiveInfo.size (pack targetSize acc assets).2 ≤ targetSize.
Proof.
  induction assets as [|asset rest IH]; intros acc HT Hacc.
  - split; [constructor|done].
  - rewrite pack_cons. case_decide as Hgt; cbn [fst snd].
    + destruct (IH emptyArchive HT) as [Hs Ho]; [simpl; lia|]. split; [|done].
      constructor.
      * exists asset. split; [by left|]. split; [apply grown_last|]. simpl. lia.
      * eapply Forall_impl; [exact Hs|]. intros item (a & Ha & Hl & Hb).
        exists a. split; [by right|done].
    + destruct (IH (grown asset acc) HT) as [Hs Ho]; [lia|]. split; [|done].
      eapply Forall_impl; [exact Hs|]. intros item (a & Ha & Hl & Hb).
      exists a. split; [by right|done].
Qed.

(** X2: for assets selected by id and a threshold that is not negative,
    every archive of the response is within the threshold, or is within it
    once the asset added to it last is taken out: an archive passes the
    threshold by one asset at most. *)
Theorem getDownloadInfo_one_page_overshoot repos authUser dto ids :
  DownloadDto.assetIds dto = Some ids →
  hasPermission repos authUser ASSET_DOWNLOAD ids = true →
  0 ≤ targetSizeOf dto →
  ∃ resp, outcome (getDownloadInfo repos authUser dto) = inr resp ∧
    ∀ item, item ∈ DownloadResponseDto.archives resp →
      DownloadArchiveInfo.size item ≤ targetSizeOf dto ∨
      ∃ asset, asset ∈ withMotion repos (getByIds repos ids) ∧
        last (DownloadArchiveInfo.assetIds item) = Some (AssetEntity.id asset) ∧
        DownloadArchiveInfo.size item - fileSize asset ≤ targetSizeOf dto.
Proof.
  intros Hids Hok HT.
  destruct (getDownloadInfo_ids repos authUser dto ids Hids Hok) as (resp & Hresp & Harch & _).
  exists resp. split; [done|]. rewrite Harch. unfold onePage. intros item Hitem.
  destruct (pack_bound (targetSizeOf dto) (withMotion repos (getByIds repos ids))
              emptyArchive HT) as [Hs Ho]; [simpl; lia|].
  apply elem_of_app in Hitem as [Hitem|Hitem].
  - right. rewrite Forall_forall in Hs. by apply Hs.
  - left. case_decide; [|by apply elem_of_nil in Hitem].
    by apply list_elem_of_singleton in Hitem as ->.
Qed.

Lemma getDownloadInfo_one_page_overshoot_witness :
  ∃ resp, outcome (getDownloadInfo livePhotoStore someUser
                     (DownloadDto.mk (Some ["p"]) None None (Some 5))) = inr resp ∧
    ∀ item, item ∈ DownloadResponseDto.archives resp →
      DownloadArchiveInfo.size item ≤ 5 ∨
      ∃ asset, asset ∈ withMotion livePhotoStore (getByIds livePhotoStore ["p"]) ∧
        last (DownloadArchiveInfo.assetIds item) = Some (AssetEntity.id asset) ∧
        DownloadArchiveInfo.size item - fileSize asset ≤ 5.
Proof.
  apply (getDownloadInfo_one_page_overshoot livePhotoStore someUser
           (DownloadDto.mk (Some ["p"]) None None (Some 5)) ["p"]);
    [reflexivity|reflexivity|vm_compute; discriminate].
Defined.

(** X5: a request by id that gives no archive size, or gives 0, is packed
    with the threshold of 4 GiB: when no asset has a negative size and the
    page with its motion parts is not empty and has at most 4294967296 bytes,
    the response has exactly one archive, which lists all ids in order. *)
Theorem getDownloadInfo_default_archiveSize repos authUser dto ids :
  DownloadDto.assetIds dto = Some ids →
  hasPermission repos authUser ASSET_DOWNLOAD ids = true →
  DownloadDto.archiveSize dto = None ∨ DownloadDto.archiveSize dto = Some 0 →
  withMotion repos (getByIds repos ids) ≠ [] →
  Forall (λ asset, 0 ≤ fileSize asset) (withMotion repos (getByIds repos ids)) →
  sumSizes (withMotion repos (getByIds repos ids)) ≤ 4294967296 →
  outcome (getDownloadInfo repos authUser dto)
  = inr (DownloadResponseDto.mk
           (sumSizes (withMotion repos (getByIds repos ids)))
           [DownloadArchiveInfo.mk
              (sumSizes (withMotion repos (getByIds repos ids)))
              (AssetEntity.id <$> withMotion repos (getByIds repos ids))]).
Proof.
  intros Hids Hok Hsize Hne Hpos Hsum.
  destruct (getDownloadInfo_ids repos authUser dto ids Hids Hok)
    as (resp & Hresp & Harch & Htotal).
  assert (HT : targetSizeOf dto = 4294967296).
  { unfold targetSizeOf. by destruct Hsize as [-> | ->]. }
  rewrite HT, onePage_within in Harch by done.
  rewrite Hresp. destruct resp as [total archs]. simpl in *. subst archs.
  f_equal. f_equal. rewrite Htotal. simpl. lia.
Qed.

Lemma getDownloadInfo_default_archiveSize_witness :
  outcome (getDownloadInfo threeAssetStore someUser
             (DownloadDto.mk (Some ["x"; "y"; "z"]) None None None))
  = inr (DownloadResponseDto.mk 3 [DownloadArchiveInfo.mk 3 ["x"; "y"; "z"]]).
Proof.
  apply (getDownloadInfo_default_archiveSize threeAssetStore someUser
           (DownloadDto.mk (Some ["x"; "y"; "z"]) None None None) ["x"; "y"; "z"]).
  - reflexivity.
  - reflexivity.
  - by left.
  - discriminate.
  - vm_compute. repeat constructor; discriminate.
  - vm_compute. discriminate.
Defined.

(** X6: a granted request by id makes one permission check, then reads the
    requested assets with one [getByIds] call, then reads the motion parts
    of all live photos of the page with one more [getByIds] call, which it
    leaves out when no asset names a motion part; it calls nothing else. *)
Theorem getDownloadInfo_ids_calls repos authUser dto ids :
  DownloadDto.assetIds dto = Some ids →
  hasPermission repos authUser ASSET_DOWNLOAD ids = true →
  trace (getDownloadInfo repos authUser dto)
  = [RequirePermission authUser ASSET_DOWNLOAD ids; GetByIds ids]
      ++ match motionIdsOf (getByIds repos ids) with
         | [] => []
         | motionIds => [GetByIds motionIds]
         end.
Proof.
  intros Hids Hok. rewrite getDownloadInfo_trace.
  rewrite (getDownloadAssets_ids _ _ _ _ Hids Hok).
  change (trace (inr [resolve (getByIds repos ids)],
                 [RequirePermission authUser ASSET_DOWNLOAD ids; GetByIds ids]))
    with [RequirePermission authUser ASSET_DOWNLOAD ids; GetByIds ids].
  f_equal. cbn [outcome fst forAwait].
  rewrite await_trace. cbn [outcome trace resolve fst snd app].
  change (?c.2) with (trace c). rewrite await_trace, planPage_trace, planPage_outcome.
  cbn [trace resolve snd]. by rewrite app_nil_r.
Qed.

Lemma getDownloadInfo_ids_calls_witness :
  trace (getDownloadInfo livePhotoStore someUser
           (DownloadDto.mk (Some ["p"]) None None None))
  = [RequirePermission someUser ASSET_DOWNLOAD ["p"]; GetByIds ["p"]; GetByIds ["m"]].
Proof.
  apply (getDownloadInfo_ids_calls livePhotoStore someUser
           (DownloadDto.mk (Some ["p"]) None None None) ["p"]); reflexivity.
Defined.

(** ** getDownloadInfo on any sequence of pages *)

Lemma deref_assetIds_in_range (h : list DownloadArchiveInfo.t) r i :
  i ∈ DownloadArchiveInfo.assetIds (deref h r) → (r < length h)%nat.
Proof.
  intros Hi. destruct (decide (r < length h)%nat); [done|].
  rewrite deref_out_of_range in Hi by lia. by apply elem_of_nil in Hi.
Qed.

Lemma addAsset_idsCovered targetSize st asset ids :
  (archive st < length (heap st))%nat →
  idsCovered st ids →
  (archive (addAsset targetSize st asset) < length (heap (addAsset targetSize st asset)))%nat ∧
  idsCovered (addAsset targetSize st asset) (ids ++ [AssetEntity.id asset]).
Proof.
  intros Hcur Hcov. unfold addAsset.
  set (h1 := alter (addSize (fileSize asset)) (archive st) (heap st)).
  set (h2 := alter (pushId (AssetEntity.id asset)) (archive st) h1).
  assert (Hlen : length h2 = length (heap st)).
  { unfold h2, h1. by rewrite !length_alter. }
  assert (Hacc : DownloadArchiveInfo.assetIds (deref h2 (archive st))
                 = DownloadArchiveInfo.assetIds (deref (heap st) (archive st))
                     ++ [AssetEntity.id asset]).
  { unfold h2, h1. rewrite deref_alter_eq by (by rewrite length_alter).
    by rewrite deref_alter_eq. }
  assert (Hgrow : ∀ r i, i ∈ DownloadArchiveInfo.assetIds (deref (heap st) r) →
                         i ∈ DownloadArchiveInfo.assetIds (deref h2 r)).
  { intros r i Hi. destruct (decide (r = archive st)) as [->|Hne].
    - rewrite Hacc. apply elem_of_app. by left.
    - unfold h2, h1. by rewrite !deref_alter_ne. }
  assert (Hcov2 : ∀ i, i ∈ ids ++ [AssetEntity.id asset] →
            i ∈ DownloadArchiveInfo.assetIds (deref h2 (archive st)) ∨
            ∃ r, r ∈ archives st ∧ i ∈ DownloadArchiveInfo.assetIds (deref h2 r)).
  { intros i Hi. apply elem_of_app in Hi as [Hi|Hi].
    - destruct (Hcov i Hi) as [Hin|(r & Hr & Hin)]; [left|right; exists r]; auto.
    - apply list_elem_of_singleton in Hi as ->. left. rewrite Hacc.
      apply elem_of_app. right. by left. }
  case_decide; simpl; (split; [rewrite ?length_app; simpl; lia|]).
  - intros i Hi. right. simpl.
    destruct (Hcov2 i Hi) as [Hin|(r & Hr & Hin)].
    + exists (archive st). split; [apply elem_of_app; right; by left|].
      rewrite deref_app_l by lia. done.
    + exists r. split; [apply elem_of_app; by left|].
      rewrite deref_app_l; [done|]. by eapply deref_assetIds_in_range.
  - exact Hcov2.
Qed.

Lemma foldl_addAsset_idsCovered targetSize assets : ∀ st ids,
  (archive st < length (heap st))%nat →
  idsCovered st ids →
  (archive (foldl (addAsset targetSize) st assets)
   < length (heap (foldl (addAsset targetSize) st assets)))%nat ∧
  idsCovered (foldl (addAsset targetSize) st assets) (ids ++ (AssetEntity.id <$> assets)).
Proof.
  induction assets as [|asset rest IH]; intros st ids Hcur Hcov.
  - simpl. by rewrite app_nil_r.
  - cbn [foldl]. rewrite fmap_cons.
    destruct (addAsset_idsCovered targetSize st asset ids Hcur Hcov) as [Hcur1 Hcov1].
    destruct (IH _ _ Hcur1 Hcov1) as [Hcur' Hcov']. split; [done|].
    by rewrite <-app_assoc in Hcov'.
Qed.

Lemma pageEnd_pushedCover st ids :
  idsCovered st ids → pushedCover (pageEnd st) ids.
Proof.
  intros Hcov i Hi. unfold pageEnd.
  destruct (Hcov i Hi) as [Hin|(r & Hr & Hin)].
  - rewrite decide_True.
    + exists (archive st). split; [apply elem_of_app; right; by left|done].
    + destruct (DownloadArchiveInfo.assetIds (deref (heap st) (archive st)));
        [by apply elem_of_nil in Hin|simpl; lia].
  - case_decide; exists r; (split; [|done]); [apply elem_of_app; by left|done].
Qed.

Lemma pageEnd_archive st :
  archive (pageEnd st) = archive st ∧ heap (pageEnd st) = heap st.
Proof. unfold pageEnd. by case_decide. Qed.

Lemma pushedCover_idsCovered st ids : pushedCover st ids → idsCovered st ids.
Proof. intros Hcov i Hi. right. by apply Hcov. Qed.

Lemma runPages_pushedCover repos targetSize pages : ∀ st ids,
  (archive st < length (heap st))%nat →
  pushedCover st ids →
  pushedCover (runPages repos targetSize pages st)
    (ids ++ (AssetEntity.id <$> concat (withMotion repos <$> pages))).
Proof.
  induction pages as [|page pages IH]; intros st ids Hcur Hcov.
  - simpl. by rewrite app_nil_r.
  - unfold runPages. cbn [foldl]. rewrite fmap_cons. cbn [concat].
    rewrite fmap_app, app_assoc.
    destruct (foldl_addAsset_idsCovered targetSize (withMotion repos page) st ids Hcur
                (pushedCover_idsCovered _ _ Hcov)) as [Hcur1 Hcov1].
    apply pageEnd_pushedCover in Hcov1.
    destruct (pageEnd_archive (foldl (addAsset targetSize) st (withMotion repos page)))
      as [Ha Hh].
    apply IH; [|done]. by rewrite Ha, Hh.
Qed.

(** X3: however the assets are selected and paged, every asset of every
    page, and every motion asset that the store returns for the non-empty
    [livePhotoVideoId]s of a page, is listed in some archive of the
    response: no asset is left out. *)
Theorem getDownloadInfo_no_asset_left_out repos authUser dto gen :
  outcome (getDownloadAssets repos authUser dto) = inr gen →
  ∃ resp, outcome (getDownloadInfo repos authUser dto) = inr resp ∧
    ∀ page, page ∈ yields gen →
      (∀ asset, asset ∈ page →
         ∃ item, item ∈ DownloadResponseDto.archives resp ∧
           AssetEntity.id asset ∈ DownloadArchiveInfo.assetIds item) ∧
      (∀ motion, liveMotionIds page ≠ [] →
         motion ∈ getByIds repos (liveMotionIds page) →
         ∃ item, item ∈ DownloadResponseDto.archives resp ∧
           AssetEntity.id motion ∈ DownloadArchiveInfo.assetIds item).
Proof.
  intros Hgen. eexists. split; [by apply getDownloadInfo_runPages|].
  assert (Hlisted : ∀ page asset, page ∈ yields gen → asset ∈ withMotion repos page →
            ∃ item,
              item ∈ DownloadResponseDto.archives
                       (responseOf (runPages repos (targetSizeOf dto) (yields gen) initialPlan)) ∧
              AssetEntity.id asset ∈ DownloadArchiveInfo.assetIds item).
  { intros page asset Hpage Hasset.
    assert (Hcov : pushedCover (runPages repos (targetSizeOf dto) (yields gen) initialPlan)
                     ([] ++ (AssetEntity.id <$> concat (withMotion repos <$> yields gen)))).
    { apply runPages_pushedCover; [simpl; lia|]. intros i Hi. by apply elem_of_nil in Hi. }
    destruct (Hcov (AssetEntity.id asset)) as (r & Hr & Hin).
    { simpl. apply list_elem_of_fmap_2.
      apply (elem_of_concat_2 _ (withMotion repos page)); [done|].
      by apply list_elem_of_fmap_2. }
    eexists. split; [|exact Hin].
    unfold responseOf. cbn [DownloadResponseDto.archives]. by apply list_elem_of_fmap_2. }
  intros page Hpage. split.
  - intros asset Hasset. apply (Hlisted page asset Hpage).
    rewrite withMotion_fetched. apply elem_of_app. by left.
  - intros motion Hne Hmotion. apply (Hlisted page motion Hpage).
    rewrite withMotion_fetched. apply elem_of_app. right. unfold fetchedMotion.
    by destruct (liveMotionIds page).
Qed.

Lemma getDownloadInfo_no_asset_left_out_witness :
  ∃ resp, outcome (getDownloadInfo livePhotoAlbumStore someUser
                     (DownloadDto.mk None (Some "album") None (Some 5))) = inr resp ∧
    (∃ item, item ∈ DownloadResponseDto.archives resp ∧
       "p" ∈ DownloadArchiveInfo.assetIds item) ∧
    (∃ item, item ∈ DownloadResponseDto.archives resp ∧
       "m" ∈ DownloadArchiveInfo.assetIds item).
Proof.
  destruct (getDownloadInfo_no_asset_left_out livePhotoAlbumStore someUser
              (DownloadDto.mk None (Some "album") None (Some 5))
              (usePagination (λ k, GetByAlbumId k "album")
                 (getByAlbumId livePhotoAlbumStore "album"))
              eq_refl) as (resp & Hresp & Hall).
  destruct (Hall [assetOf "p" 10 (Some "m")]) as [Hpage Hmotion].
  { vm_compute. left. }
  exists resp. split; [exact Hresp|]. split.
  - apply (Hpage (assetOf "p" 10 (Some "m"))). left.
  - apply (Hmotion (assetOf "m" 5 None)); [discriminate|]. vm_compute. left.
Defined.

Lemma runPages_empty repos targetSize pages :
  Forall (λ page, page = []) pages →
  runPages repos targetSize pages initialPlan = initialPlan.
Proof.
  induction 1 as [|page pages -> _ IH]; [done|].
  unfold runPages in *. cbn [foldl]. exact IH.
Qed.

(** X4: when the selection passes its access check and every page it
    delivers is empty (or it delivers no page), the response has no archive
    and a total size of 0. *)
Theorem getDownloadInfo_nothing_selected repos authUser dto gen :
  outcome (getDownloadAssets repos authUser dto) = inr gen →
  Forall (λ page, page = []) (yields gen) →
  outcome (getDownloadInfo repos authUser dto) = inr (DownloadResponseDto.mk 0 []).
Proof.
  intros Hgen Hempty. rewrite (getDownloadInfo_runPages _ _ _ _ Hgen).
  by rewrite runPages_empty.
Qed.

Lemma getDownloadInfo_nothing_selected_witness :
  outcome (getDownloadInfo threeAssetStore someUser
             (DownloadDto.mk (Some ["unknown"]) None None None))
  = inr (DownloadResponseDto.mk 0 []).
Proof.
  apply (getDownloadInfo_nothing_selected threeAssetStore someUser
           (DownloadDto.mk (Some ["unknown"]) None None None)
           [resolve (getByIds threeAssetStore ["unknown"])]).
  - reflexivity.
  - vm_compute. repeat constructor.
Defined.

(** ** downloadArchive *)

(** X7: [downloadArchive] checks the download permission on the requested
    ids before anything else; when the check fails it ends with that
    failure and has read no asset, and when it passes it reads the assets
    with exactly one [getByIds] call. *)
Theorem downloadArchive_calls extname repos authUser dto :
  trace (downloadArchive extname repos authUser dto)
  = RequirePermission authUser ASSET_DOWNLOAD (AssetIdsDto.assetIds dto)
      :: (if hasPermission repos authUser ASSET_DOWNLOAD (AssetIdsDto.assetIds dto)
          then [GetByIds (AssetIdsDto.assetIds dto)] else []) ∧
  (if hasPermission repos authUser ASSET_DOWNLOAD (AssetIdsDto.assetIds dto)
   then ∃ entries, outcome (downloadArchive extname repos authUser dto) = inr entries
   else outcome (downloadArchive extname repos authUser dto) = inl (AccessDenied ASSET_DOWNLOAD)).
Proof.
  unfold downloadArchive.
  destruct (hasPermission repos authUser ASSET_DOWNLOAD (AssetIdsDto.assetIds dto)) eqn:Hok.
  - rewrite (requirePermission_granted _ _ _ _ Hok). split; [done|by eexists].
  - by rewrite (requirePermission_denied _ _ _ _ Hok).
Qed.

Section ArchiveEntries.
Context (extname : string → string).

Lemma addFiles_paths assets : ∀ paths : gmap string JsValue,
  (addFiles extname paths assets).*1 = AssetEntity.originalPath <$> assets.
Proof.
  induction assets as [|asset rest IH]; intros paths; [done|].
  cbn [addFiles]. rewrite !fmap_cons. by rewrite IH.
Qed.

(** X8: whenever [downloadArchive] succeeds, it has added exactly one file
    per asset that the store returned, in the order of the store's answer,
    each read from the original path of its asset. *)
Theorem downloadArchive_one_file_per_asset repos authUser dto entries :
  outcome (downloadArchive extname repos authUser dto) = inr entries →
  entries.*1 = AssetEntity.originalPath <$> getByIds repos (AssetIdsDto.assetIds dto).
Proof.
  intros Hout. rewrite (downloadArchive_outcome _ _ _ _ _ Hout). apply addFiles_paths.
Qed.

Lemma countFiles_distinct_bases assets : ∀ counts : gmap string nat,
  Forall (λ asset, counts !! baseName extname asset = None) assets →
  NoDup (baseName extname <$> assets) →
  (countFiles extname counts assets).*2 = baseName extname <$> assets.
Proof.
  induction assets as [|asset rest IH]; intros counts Hfresh Hnd; [done|].
  apply Forall_cons in Hfresh as [Hasset Hfresh]. rewrite fmap_cons in Hnd.
  apply NoDup_cons in Hnd as [Hnotin Hnd].
  cbn [countFiles]. rewrite !fmap_cons. cbn [snd]. rewrite Hasset. cbn [default].
  unfold entryName at 1. rewrite decide_False by lia. f_equal.
  apply IH; [|done]. rewrite Forall_forall in Hfresh. apply Forall_forall.
  intros other Hother. rewrite lookup_insert_ne; [by apply Hfresh|].
  intros Heq. apply Hnotin. rewrite Heq. by apply list_elem_of_fmap_2.
Qed.

(** X9: when the base names (display name followed by extension) of the
    assets of an archive are pairwise distinct and none of them is the name
    of a property that objects inherit, every file is added under its base
    name, without a counter. *)
Theorem downloadArchive_distinct_base_names repos authUser dto entries :
  NoDup (baseName extname <$> getByIds repos (AssetIdsDto.assetIds dto)) →
  Forall (ownName extname) (getByIds repos (AssetIdsDto.assetIds dto)) →
  outcome (downloadArchive extname repos authUser dto) = inr entries →
  entries.*2 = baseName extname <$> getByIds repos (AssetIdsDto.assetIds dto).
Proof.
  intros Hnd Hown Hout. rewrite (downloadArchive_outcome _ _ _ _ _ Hout).
  rewrite (addFiles_empty_countFiles _ _ Hown).
  apply countFiles_distinct_bases; [|done].
  apply Forall_forall. intros asset _. apply lookup_empty.
Qed.

End ArchiveEntries.

Lemma downloadArchive_one_file_per_asset_witness :
  [("/upload/1.jpg", "a.jpg"); ("/upload/2.jpg", "a+1.jpg"); ("/upload/3.jpg", "a+1.jpg")].*1
  = AssetEntity.originalPath <$> getByIds clashStore ["1"; "2"; "3"].
Proof.
  apply (downloadArchive_one_file_per_asset posixExtname clashStore someUser
           (AssetIdsDto.mk ["1"; "2"; "3"])).
  by vm_compute.
Defined.

Lemma downloadArchive_distinct_base_names_witness :
  [("/upload/x.jpg", "x.jpg"); ("/upload/y.jpg", "y.jpg")].*2
  = baseName posixExtname <$> getByIds threeAssetStore ["x"; "y"].
Proof.
  apply (downloadArchive_distinct_base_names posixExtname threeAssetStore someUser
           (AssetIdsDto.mk ["x"; "y"])).
  - vm_compute. apply NoDup_cons. split.
    + intros Hin. apply list_elem_of_singleton in Hin. discriminate Hin.
    + apply NoDup_singleton.
  - repeat constructor.
  - by vm_compute.
Defined.

(** ** downloadFile *)

Section DownloadFileProofs.
Context (mimeLookup : string → string).

(** X13: a granted [downloadFile] reads the asset with one [getByIds] call
    for the one id; it fails with "Asset not found" exactly when the store
    returns no asset, and otherwise opens the original path of the first
    asset returned, with the mime type looked up for that path. *)
Theorem downloadFile_granted repos authUser id :
  hasPermission repos authUser ASSET_DOWNLOAD [id] = true →
  trace (downloadFile mimeLookup repos authUser id)
  = [RequirePermission authUser ASSET_DOWNLOAD [id]; GetByIds [id]] ∧
  (outcome (downloadFile mimeLookup repos authUser id)
   = inl (BadRequestException "Asset not found") ↔ getByIds repos [id] = []) ∧
  (∀ asset others, getByIds repos [id] = asset :: others →
     outcome (downloadFile mimeLookup repos authUser id)
     = inr (AssetEntity.originalPath asset, mimeLookup (AssetEntity.originalPath asset))).
Proof.
  intros Hok. unfold downloadFile. rewrite (requirePermission_granted _ _ _ _ Hok).
  destruct (getByIds repos [id]) as [|asset others].
  - cbn. split_and!; [done|done|]. intros ?? Hnil. discriminate Hnil.
  - cbn. split_and!; [done| |].
    + split; intros Heq; discriminate Heq.
    + intros ?? Heq. by injection Heq as <- <-.
Qed.

(** X14: a [downloadFile] whose permission check fails ends with that
    failure; the store is not read and no stream is opened. *)
Theorem downloadFile_denied repos authUser id :
  hasPermission repos authUser ASSET_DOWNLOAD [id] = false →
  downloadFile mimeLookup repos authUser id
  = (inl (AccessDenied ASSET_DOWNLOAD), [RequirePermission authUser ASSET_DOWNLOAD [id]]).
Proof.
  intros Hok. unfold downloadFile. by rewrite (requirePermission_denied _ _ _ _ Hok).
Qed.

End DownloadFileProofs.

Lemma downloadFile_granted_witness :
  outcome (downloadFile (λ _, "image/jpeg") threeAssetStore someUser "unknown")
  = inl (BadRequestException "Asset not found") ∧
  outcome (downloadFile (λ _, "image/jpeg") threeAssetStore someUser "x")
  = inr ("/upload/x.jpg", "image/jpeg").
Proof.
  destruct (downloadFile_granted (λ _, "image/jpeg") threeAssetStore someUser "unknown" eq_refl)
    as (_ & Hnone & _).
  destruct (downloadFile_granted (λ _, "image/jpeg") threeAssetStore someUser "x" eq_refl)
    as (_ & _ & Hfirst).
  split.
  - apply Hnone. reflexivity.
  - apply (Hfirst (assetOf "x" 1 None) []). reflexivity.
Defined.

Lemma downloadFile_denied_witness :
  downloadFile (λ _, "image/jpeg") lockedStore someUser "x"
  = (inl (AccessDenied ASSET_DOWNLOAD), [RequirePermission someUser ASSET_DOWNLOAD ["x"]]).
Proof.
  apply (downloadFile_denied (λ _, "image/jpeg") lockedStore someUser "x"). reflexivity.
Defined.

(** ** getMemoryLane, whatever the lookups answer *)

Lemma settleAll_rejects {A} (requests : list (Promise A)) completion : ∀ results i e,
  requests !! i = Some (inl e) →
  i ∈ completion →
  ∃ j e', settleAll completion requests results = inl e' ∧ requests !! j = Some (inl e').
Proof.
  induction completion as [|j completion IH]; intros results i e Hi Hin.
  - by apply elem_of_nil in Hin.
  - cbn [settleAll]. destruct (requests !! j) as [[e'|v]|] eqn:Hj.
    + by exists j, e'.
    + apply elem_of_cons in Hin as [->|Hin]; [congruence|]. by eapply IH.
    + apply elem_of_cons in Hin as [->|Hin]; [congruence|]. by eapply IH.
Qed.

Lemma settleAll_length {A} (requests : list (Promise A)) completion : ∀ results results',
  settleAll completion requests results = inr results' →
  length results' = length results.
Proof.
  induction completion as [|j completion IH]; intros results results' Hs.
  - cbn in Hs. by injection Hs as <-.
  - cbn [settleAll] in Hs. destruct (requests !! j) as [[e'|v]|]; [done| |by apply IH].
    apply IH in Hs. by rewrite length_insert in Hs.
Qed.

Lemma Promise_all_length {A} (requests : list (Promise A)) completion values :
  Promise_all completion requests = Some (inr values) →
  length values = length requests.
Proof.
  unfold Promise_all.
  destruct (settleAll completion requests (replicate (length requests) None))
    as [e|results] eqn:Hs; [done|].
  apply settleAll_length in Hs. rewrite length_replicate in Hs.
  destruct (mapM (λ r : option A, r) results) as [vs|] eqn:Hm; [|done].
  intros [= <-]. apply length_mapM in Hm. lia.
Qed.

Section MemoryLaneCalls.
Context {AssetResponseDto : Type}.
Context (mapAsset : AssetEntity.t → AssetResponseDto).
Context (minusYears : Z → Z → Z).

Lemma requestLoop_promises repos authUser target n : ∀ i,
  requestLoop mapAsset minusYears repos authUser target n i
  = (inr (promiseAt mapAsset minusYears repos authUser target <$> seqZ i (Z.of_nat n)),
     (λ k, GetByDate (AuthUserDto.id authUser) (minusYears target k)) <$> seqZ i (Z.of_nat n)).
Proof.
  induction n as [|n IH]; intros i; [done|].
  rewrite seqZ_cons by lia. rewrite !fmap_cons.
  replace (Z.pred (Z.of_nat (S n))) with (Z.of_nat n) by lia.
  replace (Z.succ i) with (i + 1) by lia.
  cbn [requestLoop]. unfold onRequest. rewrite await_call. cbn [resolve fst snd].
  unfold await at 1. cbn [fst snd]. rewrite (IH (i + 1)).
  unfold await. cbn [fst snd resolve app]. by rewrite app_nil_r.
Qed.

Lemma seqZ_to_nat (m n : Z) : seqZ m (Z.of_nat (Z.to_nat n)) = seqZ m n.
Proof.
  destruct (decide (0 ≤ n)) as [Hn|Hn]; [by rewrite Z2Nat.id|].
  rewrite (seqZ_nil m n) by lia. apply seqZ_nil. lia.
Qed.

(** X10: [getMemoryLane] issues one [getByDate] lookup for each of 1, 2,
    ..., years back from the anchor, in this order and for the caller's own
    id, whatever the lookups answer, in whatever order they complete and
    whether the call succeeds or not; for a year count below 1 it issues
    none. *)
Theorem getMemoryLane_lookups completion repos authUser dto :
  (getMemoryLane mapAsset minusYears completion repos authUser dto).2
  = (λ k, GetByDate (AuthUserDto.id authUser) (minusYears (MemoryLaneDto.timestamp dto) k))
      <$> seqZ 1 (MemoryLaneDto.years dto).
Proof.
  unfold getMemoryLane. rewrite requestLoop_promises. cbn [snd]. by rewrite seqZ_to_nat.
Qed.

(** X11: when one of the lookups of [getMemoryLane] fails and every lookup
    completes, in whatever order, the call fails with the error of a failed
    lookup: no entry is returned, not even those of the lookups that
    succeeded. *)
Theorem getMemoryLane_lookup_fails completion repos authUser dto k e :
  1 ≤ k ≤ MemoryLaneDto.years dto →
  getByDate repos (AuthUserDto.id authUser) (minusYears (MemoryLaneDto.timestamp dto) k) = inl e →
  (∀ i, (i < Z.to_nat (MemoryLaneDto.years dto))%nat → i ∈ completion) →
  ∃ k' e',
    1 ≤ k' ≤ MemoryLaneDto.years dto ∧
    getByDate repos (AuthUserDto.id authUser) (minusYears (MemoryLaneDto.timestamp dto) k')
      = inl e' ∧
    (getMemoryLane mapAsset minusYears completion repos authUser dto).1 = Some (inl e').
Proof.
  intros Hk Hfail Hall. unfold getMemoryLane. rewrite requestLoop_promises. cbn [fst].
  rewrite seqZ_to_nat.
  set (requests := promiseAt mapAsset minusYears repos authUser (MemoryLaneDto.timestamp dto)
                     <$> seqZ 1 (MemoryLaneDto.years dto)).
  assert (Hreq : requests !! Z.to_nat (k - 1) = Some (inl e)).
  { unfold requests. rewrite list_lookup_fmap, lookup_seqZ_lt by lia. simpl.
    replace (1 + Z.of_nat (Z.to_nat (k - 1))) with k by lia.
    unfold promiseAt. by rewrite Hfail. }
  destruct (settleAll_rejects requests completion (replicate (length requests) None)
              (Z.to_nat (k - 1)) e Hreq) as (j & e' & Hs & Hj).
  { apply Hall. lia. }
  unfold requests in Hj. rewrite list_lookup_fmap in Hj.
  destruct (seqZ 1 (MemoryLaneDto.years dto) !! j) as [k'|] eqn:Hk'; [|done].
  apply lookup_seqZ in Hk' as [-> Hlt]. simpl in Hj. injection Hj as Hj.
  exists (1 + Z.of_nat j), e'. split; [lia|]. split.
  - unfold promiseAt in Hj.
    destruct (getByDate repos (AuthUserDto.id authUser)
                (minusYears (MemoryLaneDto.timestamp dto) (1 + Z.of_nat j))); congruence.
  - unfold Promise_all. fold requests. by rewrite Hs.
Qed.

(** X12: whenever [getMemoryLane] succeeds, no entry of its result has an
    empty asset list, and the result has at most as many entries as years
    were asked for. *)
Theorem getMemoryLane_result_entries completion repos authUser dto entries :
  (getMemoryLane mapAsset minusYears completion repos authUser dto).1 = Some (inr entries) →
  Forall (λ entry, MemoryLaneResponseDto.assets entry ≠ []) entries ∧
  (length entries ≤ Z.to_nat (MemoryLaneDto.years dto))%nat.
Proof.
  unfold getMemoryLane. rewrite requestLoop_promises. cbn [fst].
  destruct (Promise_all completion _) as [[e|results]|] eqn:Hall; [done| |done].
  intros [= <-]. apply Promise_all_length in Hall.
  rewrite length_fmap, length_seqZ, Nat2Z.id in Hall. split.
  - apply Forall_forall. intros entry Hentry. apply list_elem_of_filter in Hentry as [Hlen _].
    destruct (MemoryLaneResponseDto.assets entry); [simpl in Hlen; lia|done].
  - rewrite <-Hall. apply length_filter.
Qed.

End MemoryLaneCalls.

Lemma getMemoryLane_lookup_fails_witness :
  ∃ k' e',
    1 ≤ k' ≤ 2 ∧
    getByDate brokenStore "user" (yearsBefore 100000000000 k') = inl e' ∧
    (getMemoryLane AssetEntity.id yearsBefore [1; 0]%nat brokenStore someUser
       (MemoryLaneDto.mk 100000000000 2)).1 = Some (inl e').
Proof.
  apply (getMemoryLane_lookup_fails AssetEntity.id yearsBefore [1; 0]%nat brokenStore someUser
           (MemoryLaneDto.mk 100000000000 2) 1 (BadRequestException "store failure")).
  - simpl. lia.
  - reflexivity.
  - intros i Hi. simpl in Hi. destruct i as [|[|i]]; [set_solver..|lia].
Defined.

Lemma getMemoryLane_result_entries_witness :
  Forall (λ entry : MemoryLaneResponseDto.t string, MemoryLaneResponseDto.assets entry ≠ [])
    [MemoryLaneResponseDto.mk "1 year since..." ["first"];
     MemoryLaneResponseDto.mk "3 years since..." ["third"]] ∧
  (2 ≤ 3)%nat.
Proof.
  apply (getMemoryLane_result_entries AssetEntity.id yearsBefore [2; 0; 1]%nat anniversaryStore
           someUser (MemoryLaneDto.mk 100000000000 3)).
  by vm_compute.
Defined.

(** ** getDownloadInfo lists selected assets only *)

Lemma deref_app_cases (h : list DownloadArchiveInfo.t) r i :
  i ∈ DownloadArchiveInfo.assetIds (deref (h ++ [emptyArchive]) r) →
  i ∈ DownloadArchiveInfo.assetIds (deref h r).
Proof.
  intros Hi. destruct (decide (r < length h)%nat) as [Hr|Hr].
  - by rewrite deref_app_l in Hi.
  - exfalso. unfold deref in Hi. destruct (decide (r = length h)) as [->|Hne].
    + rewrite list_lookup_middle in Hi by done. by apply elem_of_nil in Hi.
    + rewrite lookup_ge_None_2 in Hi by (rewrite length_app; simpl; lia).
      by apply elem_of_nil in Hi.
Qed.

Lemma addAsset_heapWithin targetSize st asset ids :
  heapWithin st ids →
  heapWithin (addAsset targetSize st asset) (ids ++ [AssetEntity.id asset]).
Proof.
  intros Hin. unfold addAsset.
  set (h1 := alter (addSize (fileSize asset)) (archive st) (heap st)).
  set (h2 := alter (pushId (AssetEntity.id asset)) (archive st) h1).
  assert (Hh2 : ∀ r i, i ∈ DownloadArchiveInfo.assetIds (deref h2 r) →
                       i ∈ ids ++ [AssetEntity.id asset]).
  { intros r i Hi. apply elem_of_app.
    destruct (decide (r = archive st)) as [->|Hne].
    - destruct (decide (archive st < length (heap st))%nat) as [Hlt|Hge].
      + unfold h2, h1 in Hi. rewrite deref_alter_eq in Hi by (by rewrite length_alter).
        rewrite deref_alter_eq in Hi by done. simpl in Hi.
        apply elem_of_app in Hi as [Hi|Hi]; [left; by eapply Hin|by right].
      + rewrite deref_out_of_range in Hi; [by apply elem_of_nil in Hi|].
        unfold h2, h1. rewrite !length_alter. lia.
    - unfold h2, h1 in Hi. rewrite !deref_alter_ne in Hi by done. left. by eapply Hin. }
  case_decide; intros r i Hi; simpl in Hi; [|by eapply Hh2].
  apply deref_app_cases in Hi. by eapply Hh2.
Qed.

Lemma runPages_heapWithin repos targetSize pages : ∀ st ids,
  heapWithin st ids →
  heapWithin (runPages repos targetSize pages st)
    (ids ++ (AssetEntity.id <$> concat (withMotion repos <$> pages))).
Proof.
  assert (Hfold : ∀ assets st ids, heapWithin st ids →
            heapWithin (foldl (addAsset targetSize) st assets)
              (ids ++ (AssetEntity.id <$> assets))).
  { induction assets as [|asset rest IH]; intros st ids Hin.
    - simpl. by rewrite app_nil_r.
    - cbn [foldl]. rewrite fmap_cons.
      replace (ids ++ AssetEntity.id asset :: (AssetEntity.id <$> rest))
        with ((ids ++ [AssetEntity.id asset]) ++ (AssetEntity.id <$> rest))
        by (by rewrite <-app_assoc).
      by apply IH, addAsset_heapWithin. }
  induction pages as [|page pages IH]; intros st ids Hin.
  - simpl. by rewrite app_nil_r.
  - unfold runPages. cbn [foldl]. rewrite fmap_cons. cbn [concat].
    rewrite fmap_app, app_assoc. apply IH.
    intros r i Hi.
    destruct (pageEnd_archive (foldl (addAsset targetSize) st (withMotion repos page)))
      as [_ Hh].
    rewrite Hh in Hi. by eapply Hfold.
Qed.

(** X15: however the assets are selected and paged, every id that an
    archive of the response lists is the id of an asset of one of the pages
    or of a motion part fetched for a page: the archives name nothing that
    was not selected. *)
Theorem getDownloadInfo_lists_selected_only repos authUser dto gen :
  outcome (getDownloadAssets repos authUser dto) = inr gen →
  ∃ resp, outcome (getDownloadInfo repos authUser dto) = inr resp ∧
    ∀ item i,
      item ∈ DownloadResponseDto.archives resp →
      i ∈ DownloadArchiveInfo.assetIds item →
      ∃ page asset,
        page ∈ yields gen ∧ asset ∈ withMotion repos page ∧ AssetEntity.id asset = i.
Proof.
  intros Hgen. eexists. split; [by apply getDownloadInfo_runPages|].
  intros item i Hitem Hi.
  unfold responseOf in Hitem. cbn [DownloadResponseDto.archives] in Hitem.
  apply list_elem_of_fmap in Hitem as (r & -> & _).
  assert (Hin : heapWithin (runPages repos (targetSizeOf dto) (yields gen) initialPlan)
                  ([] ++ (AssetEntity.id <$> concat (withMotion repos <$> yields gen)))).
  { apply runPages_heapWithin. intros r' i' Hi'.
    destruct r' as [|r']; cbn in Hi'; by apply elem_of_nil in Hi'. }
  apply Hin in Hi. simpl in Hi.
  apply list_elem_of_fmap in Hi as (asset & -> & Hasset).
  assert (Hsplit : ∀ ls : list (list AssetEntity.t),
            asset ∈ concat ls → ∃ l, l ∈ ls ∧ asset ∈ l).
  { clear. induction ls as [|l ls IH]; simpl; intros Ha; [by apply elem_of_nil in Ha|].
    apply elem_of_app in Ha as [Ha|Ha]; [exists l; split; [by left|done]|].
    destruct (IH Ha) as (l' & Hl' & Hin). exists l'. split; [by right|done]. }
  destruct (Hsplit _ Hasset) as (working & Hworking & Hin').
  apply list_elem_of_fmap in Hworking as (page & -> & Hpage).
  by exists page, asset.
Qed.

Lemma getDownloadInfo_lists_selected_only_witness :
  ∃ resp, outcome (getDownloadInfo twoPageStore someUser
                     (DownloadDto.mk None (Some "album") None (Some 10))) = inr resp ∧
    ∀ item i,
      item ∈ DownloadResponseDto.archives resp →
      i ∈ DownloadArchiveInfo.assetIds item →
      ∃ page asset,
        page ∈ getByAlbumId twoPageStore "album" ∧
        asset ∈ withMotion twoPageStore page ∧ AssetEntity.id asset = i.
Proof.
  apply (getDownloadInfo_lists_selected_only twoPageStore someUser
           (DownloadDto.mk None (Some "album") None (Some 10))
           (usePagination (λ k, GetByAlbumId k "album") (getByAlbumId twoPageStore "album"))).
  reflexivity.
Defined.
